(** * Patch automation of the embedding server: string rewriting scripts

    The five scripts under [src/] read one file, apply a fixed sequence of
    [str.replace] calls with literal anchors, and write the result back.
    This development embeds Python's [str.replace] on sequences of code
    points, the literals of every script, and the scripts themselves, and
    proves what the specification says about them. *)

From Stdlib Require Import String Ascii List Arith Lia Bool NArith ZArith DecimalString.
From Stdlib Require PrimFloat Uint63.
Import ListNotations.

(** ** Python strings as sequences *)

(** Characters are compared for equality. *)
Class EqB (A : Type) := {
  ch_eqb : A -> A -> bool;
  ch_eqb_eq : forall x y, ch_eqb x y = true <-> x = y
}.

#[global] Instance EqB_N : EqB N := {| ch_eqb := N.eqb; ch_eqb_eq := N.eqb_eq |}.

Section PyStr.

Context {A : Type} {EqA : EqB A}.

(** [s.startswith(p)] *)
Fixpoint startswith (s p : list A) {struct p} : bool :=
  match p with
  | [] => true
  | x :: p' =>
    match s with
    | [] => false
    | y :: s' => ch_eqb x y && startswith s' p'
    end
  end.

(** [s.endswith(p)] *)
Definition endswith (s p : list A) : bool :=
  startswith (rev s) (rev p).

(** [p in s] *)
Fixpoint occurs (p s : list A) : bool :=
  startswith s p ||
  match s with
  | [] => false
  | _ :: s' => occurs p s'
  end.

(** Two texts one of which begins with the other. *)
Definition comparable (p q : list A) : bool :=
  startswith p q || startswith q p.

(** [s.replace(old, new)]: the text is scanned from the left; at every
    position where [old] begins, [new] is emitted and the scan resumes
    after the match, so matches never overlap.  [skip] counts the
    characters of the current match still to be passed over.  For an
    empty [old], Python inserts [new] before every character and at the
    end. *)
Section Replace.

Variables old new : list A.

Fixpoint replace_scan (skip : nat) (s : list A) : list A :=
  match s with
  | [] => []
  | c :: s' =>
    match skip with
    | S k => replace_scan k s'
    | O =>
      if startswith s old
      then new ++ replace_scan (length old - 1) s'
      else c :: replace_scan 0 s'
    end
  end.

Definition replace (s : list A) : list A :=
  match old with
  | [] => new ++ flat_map (fun c => c :: new) s
  | _ :: _ => replace_scan 0 s
  end.

(** [u ++ old] holds no occurrence of [old] but its last one: in
    [u ++ old ++ t] the scan meets [old] for the first time after [u]. *)
Definition First (u : list A) : Prop :=
  forall a b, u ++ old = a ++ old ++ b -> b = [].

(** Frame: the output is the input with the matches met by the scan
    rewritten and every other character kept. *)
Inductive Rewrite : list A -> list A -> Prop :=
| Rewrite_rest s : occurs old s = false -> Rewrite s s
| Rewrite_hit u t t' :
    First u -> Rewrite t t' -> Rewrite (u ++ old ++ t) (u ++ new ++ t').

End Replace.

(** [Subst a b s s']: [s'] is [s] with some disjoint occurrences of [a]
    replaced by [b].  The relation forgets which occurrences the scan
    picks, so it can be read in both directions. *)
Inductive Subst (a b : list A) : list A -> list A -> Prop :=
| Subst_same s : Subst a b s s
| Subst_step u t t' :
    Subst a b t t' -> Subst a b (u ++ a ++ t) (u ++ b ++ t').

(** Overlap conditions on literals, decided by evaluation. *)

(** No proper tail of [p] is comparable with [q]: an occurrence of [p]
    cannot begin before a [q] and run into it. *)
Definition no_overlapL (p q : list A) : bool :=
  forallb (fun k => negb (comparable (skipn k p) q)) (seq 1 (length p - 1)).

(** [p] can begin inside [q] at the offsets [ks] only. *)
Definition inside_at (ks : list nat) (p q : list A) : bool :=
  forallb (fun k => negb (comparable (skipn k q) p) || existsb (Nat.eqb k) ks)
          (seq 0 (length q)).

(** The side conditions under which an occurrence of [p] survives the
    replacement of [a] by [b]: [a] does not lie inside [p]; a [p] inside
    [a] is found again inside [b]; a tail of [p] that begins [a] also
    begins [b]; a tail of [a] that begins [p] also ends [b]. *)
Definition transfer_ok (p a b : list A) : bool :=
  negb (occurs a p) && (negb (occurs p a) || occurs p b) &&
  forallb (fun j => negb (startswith a (skipn j p)) || startswith b (skipn j p))
          (seq 1 (length p - 1)) &&
  forallb (fun k => negb (startswith p (skipn k a)) || endswith b (skipn k a))
          (seq 1 (length a - 1)).

Record Transfers (p a b : list A) : Prop := {
  tr_outside : occurs a p = false;
  tr_inside : occurs p a = true -> occurs p b = true;
  tr_right : forall f l, p = f ++ l -> f <> [] -> l <> [] ->
                         startswith a l = true -> startswith b l = true;
  tr_left : forall f l, a = f ++ l -> f <> [] -> l <> [] ->
                        startswith p l = true -> endswith b l = true
}.

(** [p] can neither begin before a [q] and run into it, nor begin inside
    it: occurrences of [p] keep clear of every [q]. *)
Definition apart (p q : list A) : bool :=
  no_overlapL p q && inside_at [] p q.

(** Every proper tail of [old] that runs into [new] also begins [old]: an
    anchor that seems to begin before a replacement already began before
    the match it replaces. *)
Definition overlap_mirrored (old new : list A) : bool :=
  forallb (fun k => negb (comparable (skipn k old) new)
                    || startswith old (skipn k old))
          (seq 1 (length old - 1)).

(** The text in front of the first occurrence of [p] in [s]; all of [s]
    when [p] does not occur. *)
Fixpoint before_first (p s : list A) : list A :=
  match s with
  | [] => []
  | c :: s' => if startswith s p then [] else c :: before_first p s'
  end.

(** The offsets at which [p] begins in [s], counted from [i]. *)
Fixpoint positions_from (i : nat) (p s : list A) : list nat :=
  (if startswith s p then [i] else []) ++
  match s with
  | [] => []
  | _ :: s' => positions_from (S i) p s'
  end.

End PyStr.


(** A Python [str] is a sequence of Unicode code points. *)
Definition pystr := list N.

Definition py (s : string) : pystr := map N_of_ascii (list_ascii_of_string s).

Arguments py s%_string.

Definition dq : pystr := [34%N].
Definition nl : pystr := [10%N].

(** The lines of a literal, joined by newlines. *)
Fixpoint lines (ls : list pystr) : pystr :=
  match ls with
  | [] => []
  | l :: ls' =>
    match ls' with
    | [] => l
    | _ :: _ => l ++ nl ++ lines ls'
    end
  end.

(** [content.replace(old, new)] and [p in s] on code points. *)
Definition str_replace (content old new : pystr) : pystr :=
  replace old new content.

Definition str_in (p s : pystr) : bool := occurs p s.

(** The files of the working directory, as the decoded text they hold.
    The scripts open their file in text mode: [open(f).read()] fails on a
    missing file and reads every line ending [\r\n] or [\r] as [\n]
    (universal newlines); [open(f, 'w').write(c)] creates or overwrites the
    file and writes [\n] as the line separator of the platform, which is
    [\n] itself on POSIX.  A state holds text: a file whose bytes do not
    decode, on which the read raises, and a write that fails after the
    file was opened, are outside this model. *)
Definition path := string.
Definition FS := path -> option pystr.

Definition cr : N := 13%N.
Definition lf : N := 10%N.

Fixpoint universal_newlines (raw : pystr) : pystr :=
  match raw with
  | [] => []
  | c :: rest =>
    if N.eqb c cr
    then lf :: match rest with
               | [] => []
               | d :: rest' =>
                 if N.eqb d lf then universal_newlines rest'
                 else universal_newlines rest
               end
    else c :: universal_newlines rest
  end.

Definition read_text (fs : FS) (f : path) : option pystr :=
  match fs f with
  | Some raw => Some (universal_newlines raw)
  | None => None
  end.

Definition fs_write (fs : FS) (f : path) (c : pystr) : FS :=
  fun q => if String.eqb q f then Some c else fs q.

Definition run_script (f : path) (patch : pystr -> pystr) (fs : FS) : option FS :=
  match read_text fs f with
  | Some content => Some (fs_write fs f (patch content))
  | None => None
  end.

(** ** The five scripts *)

Module PatchEngineEmpty.

Definition file : path := "src/embedding/engine.rs"%string.

Definition old_line : pystr :=
    py "let embedding = hidden.narrow(1, actual_len - 1, 1)?.squeeze(1)?;".

Definition new_lines : pystr :=
    lines [
      py "if actual_len == 0 { return Err(anyhow::anyhow!(" ++ dq ++ py "Cannot embed empty token sequence" ++ dq ++ py ")); }";
      py "                    let embedding = hidden.narrow(1, actual_len - 1, 1)?.squeeze(1)?;" ].

Definition patch (content : pystr) : pystr :=
    str_replace content old_line new_lines.

(** Parts of the replacement text: the error expression of the early
    return, the guard statement, and the indentation of the next line. *)
Definition generic_error : pystr :=
  py "Err(anyhow::anyhow!(" ++ dq ++ py "Cannot embed empty token sequence" ++ dq ++ py "))".

Definition guard : pystr :=
  py "if actual_len == 0 { return " ++ generic_error ++ py "; }".

Definition indent : pystr := py "                    ".

(** The extraction expression of the anchor line, and the name of the
    typed error of the specification. *)
Definition pooling_index : pystr := py "hidden.narrow(1, actual_len - 1, 1)".

Definition typed_error : pystr := py "EmptyInputError".

(** A small engine source holding the anchor line. *)
Definition engine_example : pystr :=
  lines [
    py "let hidden = model.forward(&input_ids)?;";
    py "let actual_len = lens[i];";
    old_line ].

Definition script : FS -> option FS := run_script file patch.

(** The text before the anchor line in the patched example. *)
Definition engine_example_before : pystr :=
  lines [
    py "let hidden = model.forward(&input_ids)?;";
    py "let actual_len = lens[i];";
    guard;
    indent ].

End PatchEngineEmpty.

Module PatchDefault.

Definition file : path := "src/embedding/config.rs"%string.

Definition old_impl : pystr :=
    lines [
      py "impl Default for ModelType {";
      py "    fn default() -> Self {";
      py "        Self::Qwen3";
      py "    }";
      py "}" ].

Definition old_derive : pystr :=
    py "#[derive(Debug, Clone, Copy, PartialEq, Eq)]".

Definition new_derive : pystr :=
    py "#[derive(Debug, Clone, Copy, PartialEq, Eq, Default)]".

Definition old_variant : pystr :=
    py "    Qwen3,".

Definition new_variant : pystr :=
    lines [
      py "    #[default]";
      py "    Qwen3," ].

Definition patch (content : pystr) : pystr :=
    let content := str_replace content old_impl [] in
    let content := str_replace content old_derive new_derive in
    let content := str_replace content old_variant new_variant in
    content.

Definition script : FS -> option FS := run_script file patch.

(** The two ways the text gives [ModelType] a default: the manual
    [impl Default] returning [Self::Qwen3], or [Default] in the derive list
    together with [#[default]] on the [Qwen3] variant. *)
Definition has_manual_default (content : pystr) : bool :=
  str_in old_impl content.

Definition has_derived_default (content : pystr) : bool :=
  str_in new_derive content && str_in new_variant content.

(** A small config source: the enum, and the text around the manual impl. *)
Definition config_example_head : pystr :=
  lines [
    old_derive;
    py "pub enum ModelType {";
    py "    E5Small,";
    old_variant;
    py "}";
    [];
    [] ].

Definition config_example_tail : pystr :=
  lines [
    [];
    [];
    py "pub struct EmbeddingConfig { pub model: ModelType }";
    [] ].

(** A config source whose enum derives one trait more: the derive line is
    not the anchor of the second replacement. *)
Definition config_hash_example : pystr :=
  lines [
    py "#[derive(Debug, Clone, Copy, PartialEq, Eq, Hash)]";
    py "pub enum ModelType {";
    py "    E5Small,";
    old_variant;
    py "}";
    [];
    old_impl;
    [] ].

(** The declaration of the enum, and the characters that end an item,
    open or close a body, or begin a comment. *)
Definition enum_head : pystr := py "enum ModelType {".

Definition lbrace : N := 123%N.
Definition rbrace : N := 125%N.
Definition semicolon : N := 59%N.
Definition slash : N := 47%N.

Definition holds_none_of (cs : list N) (s : pystr) : bool :=
  forallb (fun c => negb (existsb (N.eqb c) cs)) s.

(** A text that holds no item and no comment: nothing in it ends with a
    semicolon, has a body, or has a slash. *)
Definition item_free (m : pystr) : bool :=
  holds_none_of [lbrace; rbrace; semicolon; slash] m.

(** A text that does not close the body it stands in. *)
Definition body_open (b : pystr) : bool := holds_none_of [rbrace] b.

(** What follows a text begins a line. *)
Definition line_start (a : pystr) : bool :=
  match rev a with
  | [] => true
  | c :: _ => N.eqb c lf
  end.

(** The text gives [ModelType] itself a derived default [Qwen3]: the
    derive line with [Default] begins a line and stands in front of
    [enum ModelType {] with no other item and no comment between them, and
    [#[default]] with the [Qwen3] variant begins a line in the body of
    that enum, in front of its closing brace. *)
Definition derives_default_for_model_type (content : pystr) : Prop :=
  exists a m b c,
    content = a ++ new_derive ++ m ++ enum_head ++ b ++ new_variant ++ c /\
    line_start a = true /\ item_free m = true /\
    line_start b = true /\ body_open b = true.

(** The second and the third replacement of the script, applied to the
    text the first one leaves. *)
Definition derive_and_variant (content : pystr) : pystr :=
  str_replace (str_replace content old_derive new_derive) old_variant new_variant.

(** The pieces of the small config source around its anchors. *)
Definition config_example_vis : pystr := nl ++ py "pub ".

Definition config_example_body : pystr := nl ++ py "    E5Small," ++ nl.

Definition config_example_rest : pystr :=
  nl ++ py "}" ++ nl ++ nl ++ config_example_tail.

(** A config source in which another enum carries the derive line of the
    anchor, and [ModelType] derives one trait more. *)
Definition config_other_enum_example : pystr :=
  lines [
    old_derive;
    py "pub enum Pooling {";
    py "    Mean,";
    py "}";
    [];
    py "#[derive(Debug, Clone, Copy, PartialEq, Eq, Hash)]";
    py "pub enum ModelType {";
    py "    E5Small,";
    old_variant;
    py "}";
    [];
    old_impl;
    [] ].

Definition config_other_enum_patched : pystr :=
  lines [
    new_derive;
    py "pub enum Pooling {";
    py "    Mean,";
    py "}";
    [];
    py "#[derive(Debug, Clone, Copy, PartialEq, Eq, Hash)]";
    py "pub enum ModelType {";
    py "    E5Small,";
    py "    #[default]";
    py "    Qwen3,";
    py "}";
    [];
    [];
    [] ].

End PatchDefault.

Module PatchMain.

Definition file : path := "src/main.rs"%string.

Definition old_mrl_help : pystr :=
    py "#[arg(long, env = " ++ dq ++ py "MRL_DIM" ++ dq ++ py ")]".

Definition new_mrl_help : pystr :=
    py "#[arg(long, env = " ++ dq ++ py "MRL_DIM" ++ dq ++ py ", help = " ++ dq ++ py "MRL output dimension (Qwen3/Gemma only). Defaults to model native dim (1024 for qwen3)" ++ dq ++ py ")]".

Definition old_log : pystr :=
    lines [
      py "tracing::warn!(" ++ dq ++ py "Dimension check: {}" ++ dq ++ py ", e);";
      py "    }" ].

Definition new_log : pystr :=
    lines [
      py "tracing::warn!(" ++ dq ++ py "Dimension check: {}" ++ dq ++ py ", e);";
      py "    }";
      [];
      py "    tracing::info!(output_dim = embedding_config.output_dim(), model = %embedding_config.model, " ++ dq ++ py "Embedding engine configured" ++ dq ++ py ");" ].

Definition patch (content : pystr) : pystr :=
    let content := str_replace content old_mrl_help new_mrl_help in
    let content := str_replace content old_log new_log in
    content.

Definition script : FS -> option FS := run_script file patch.


(** A small main source holding both anchors, and the text around the
    dimension check in its patched form. *)
Definition main_example : pystr :=
  lines [
    py "    " ++ old_mrl_help;
    py "    mrl_dim: Option<usize>,";
    py "    if let Err(e) = check_dimension(&db).await {";
    py "        " ++ old_log;
    py "    serve(embedding_config).await" ].



(** What the new help text says about the unset option. *)
Definition help_default : pystr :=
  py "help = " ++ dq ++ py "MRL output dimension (Qwen3/Gemma only). Defaults to model native dim (1024 for qwen3)" ++ dq.

End PatchMain.

Module PatchReadme.

Definition file : path := "README.md"%string.

Definition old_config_table : pystr :=
    lines [
      py "| Arg | Env | Default | Description |";
      py "|-----|-----|---------|-------------|";
      py "| `--data-dir` | `DATA_DIR` | `./data` | DB location |";
      py "| `--model` | `EMBEDDING_MODEL` | `e5_multi` | Embedding model (`e5_small`, `e5_multi`, `nomic`, `bge_m3`) |";
      py "| `--log-level` | `LOG_LEVEL` | `info` | Verbosity |" ].

Definition new_config_table : pystr :=
    lines [
      py "| Arg | Env | Default | Description |";
      py "|-----|-----|---------|-------------|";
      py "| `--data-dir` | `DATA_DIR` | `./data` | DB location |";
      py "| `--model` | `EMBEDDING_MODEL` | `qwen3` | Embedding model (`qwen3`, `gemma`, `bge_m3`, `nomic`, `e5_multi`, `e5_small`) |";
      py "| `--mrl-dim` | `MRL_DIM` | *(native)* | Output dimension for MRL-supported models (e.g. 64, 128, 256, 512, 1024 for Qwen3). Defaults to the model's native maximum dimension (1024 for Qwen3). |";
      py "| `--batch-size` | `BATCH_SIZE` | `8` | Maximum batch size for embedding inference |";
      py "| `--cache-size` | `CACHE_SIZE` | `1000` | LRU cache capacity for embeddings |";
      py "| `--timeout` | `TIMEOUT_MS` | `30000` | Timeout in milliseconds |";
      py "| `--idle-timeout` | `IDLE_TIMEOUT` | `0` | Idle timeout in minutes. 0 = disabled |";
      py "| `--log-level` | `LOG_LEVEL` | `info` | Verbosity |" ].

Definition old_models_table : pystr :=
    lines [
      py "| Argument Value | HuggingFace Repo | Dimensions | Size | Use Case |";
      py "| :--- | :--- | :--- | :--- | :--- |";
      py "| `e5_small` | `intfloat/multilingual-e5-small` | 384 | 134 MB | Fastest, minimal RAM. Good for dev/testing. |";
      py "| `e5_multi` | `intfloat/multilingual-e5-base` | 768 | 1.1 GB | **Default**. Best balance of quality/speed. |";
      py "| `nomic` | `nomic-ai/nomic-embed-text-v1.5` | 768 | 1.9 GB | High quality long-context embeddings. |";
      py "| `bge_m3` | `BAAI/bge-m3` | 1024 | 2.3 GB | State-of-the-art multilingual quality. Heavy. |" ].

Definition new_models_table : pystr :=
    lines [
      py "| Argument Value | HuggingFace Repo | Dimensions | Size | Use Case |";
      py "| :--- | :--- | :--- | :--- | :--- |";
      py "| `qwen3` | `Qwen/Qwen3-Embedding-0.6B` | 1024 (MRL) | 1.2 GB | **Default**. Top open-source 2026 model, 32K context, MRL support. |";
      py "| `gemma` | `onnx-community/embeddinggemma-300m-ONNX` | 768 (MRL) | ~195 MB | Lighter alternative with MRL support. (Requires proprietary license agreement) |";
      py "| `bge_m3` | `BAAI/bge-m3` | 1024 | 2.3 GB | State-of-the-art multilingual hybrid retrieval. Heavy. |";
      py "| `nomic` | `nomic-ai/nomic-embed-text-v1.5` | 768 | 1.9 GB | High quality long-context BERT-compatible. |";
      py "| `e5_multi` | `intfloat/multilingual-e5-base` | 768 | 1.1 GB | Legacy; kept for backward compatibility. |";
      py "| `e5_small` | `intfloat/multilingual-e5-small` | 384 | 134 MB | Fastest, minimal RAM. Good for dev/testing. |";
      [];
      py "### " ++ [128201%N] ++ py " Matryoshka Representation Learning (MRL)";
      [];
      py "Models marked with **(MRL)** support dynamically truncating the output embedding vector to a smaller dimension (e.g., 512, 256, 128) with minimal loss of accuracy. This saves database storage and speeds up vector search.";
      [];
      py "Use the `--mrl-dim` argument to specify the desired size. If omitted, the default is the model's native base dimension (e.g., 1024 for Qwen3).";
      [];
      py "**Warning:** Once your database is created with a specific dimension, you cannot change it without wiping the data directory." ].

Definition patch (readme : pystr) : pystr :=
    let readme := str_replace readme old_config_table new_config_table in
    let readme := str_replace readme old_models_table new_models_table in
    readme.

Definition script : FS -> option FS := run_script file patch.

(** What the new texts say about the unset option: the number they
    document, the row of the configuration table and the sentence of the
    MRL section. *)
Definition documented_native_dim : pystr := py "1024".

Definition mrl_row : pystr :=
  py "`--mrl-dim` | `MRL_DIM` | *(native)* | Output dimension for MRL-supported models (e.g. 64, 128, 256, 512, 1024 for Qwen3). Defaults to the model's native maximum dimension ("
    ++ documented_native_dim ++ py " for Qwen3).".

Definition mrl_section_default : pystr :=
  py "Use the `--mrl-dim` argument to specify the desired size. If omitted, the default is the model's native base dimension (e.g., "
    ++ documented_native_dim ++ py " for Qwen3).".

(** A README holding both tables. *)
Definition readme_example : pystr :=
  lines [
    py "## Configuration";
    [];
    old_config_table;
    [];
    py "## Models";
    [];
    old_models_table;
    [] ].

End PatchReadme.

Module PatchService.

Definition file : path := "src/embedding/service.rs"%string.

Definition old_bindings : pystr :=
    lines [
      py "let model = self.config.model;";
      py "        let cache_dir = self.config.cache_dir.clone();" ].

Definition new_bindings : pystr :=
    lines [
      py "let model = self.config.model;";
      py "        let mrl_dim = self.config.mrl_dim;";
      py "        let cache_dir = self.config.cache_dir.clone();" ].

Definition patch (content : pystr) : pystr :=
    str_replace content old_bindings new_bindings.

Definition script : FS -> option FS := run_script file patch.

(** The three bindings of the replacement text. *)
Definition model_binding : pystr := py "let model = self.config.model;".
Definition mrl_binding : pystr := py "let mrl_dim = self.config.mrl_dim;".
Definition cache_binding : pystr := py "let cache_dir = self.config.cache_dir.clone();".
Definition indent : pystr := py "        ".

(** A small service source holding the anchor. *)
Definition service_example : pystr :=
  lines [
    py "    fn spawn_worker(&self) {";
    py "        " ++ old_bindings;
    py "        std::thread::spawn(move || worker(model, mrl_dim, cache_dir));";
    py "    }" ].

(** The comment of the script (lines 5-6) wants [mrl_dim] captured before
    the thread spawn; the script itself names no spawn call.  [spawn]
    stands for the text of the call in the service source, and
    [bound_before b spawn content] says that the text holds a spawn call
    and that [b] stands in front of the first one. *)
Definition bound_before (b spawn content : pystr) : bool :=
  str_in spawn content && str_in b (before_first spawn content).

(** A spawn call that keeps clear of the bindings: it does not hold them,
    and neither text runs into the other. *)
Definition clear_of_bindings (spawn : pystr) : bool :=
  transfer_ok spawn old_bindings new_bindings
  && transfer_ok spawn new_bindings old_bindings
  && no_overlapL new_bindings spawn.

(** The spawn call as the examples write it. *)
Definition spawn_call : pystr := py "std::thread::spawn(".

(** A service source that spawns the thread in front of the bindings. *)
Definition service_spawn_first_example : pystr :=
  lines [
    py "    fn spawn_worker(&self) {";
    py "        std::thread::spawn(move || worker());";
    py "        " ++ old_bindings;
    py "    }" ].

End PatchService.

(** ** The scripts as sequences of replacements *)

Inductive script_name := EngineEmpty | Default | Main | Readme | Service.

(** The [(old, new)] pairs of each script, in the order of its calls. *)
Definition steps (n : script_name) : list (pystr * pystr) :=
  match n with
  | EngineEmpty => [(PatchEngineEmpty.old_line, PatchEngineEmpty.new_lines)]
  | Default => [(PatchDefault.old_impl, []);
                (PatchDefault.old_derive, PatchDefault.new_derive);
                (PatchDefault.old_variant, PatchDefault.new_variant)]
  | Main => [(PatchMain.old_mrl_help, PatchMain.new_mrl_help);
             (PatchMain.old_log, PatchMain.new_log)]
  | Readme => [(PatchReadme.old_config_table, PatchReadme.new_config_table);
               (PatchReadme.old_models_table, PatchReadme.new_models_table)]
  | Service => [(PatchService.old_bindings, PatchService.new_bindings)]
  end.

Definition patch_of (n : script_name) : pystr -> pystr :=
  match n with
  | EngineEmpty => PatchEngineEmpty.patch
  | Default => PatchDefault.patch
  | Main => PatchMain.patch
  | Readme => PatchReadme.patch
  | Service => PatchService.patch
  end.

Definition file_of (n : script_name) : path :=
  match n with
  | EngineEmpty => PatchEngineEmpty.file
  | Default => PatchDefault.file
  | Main => PatchMain.file
  | Readme => PatchReadme.file
  | Service => PatchService.file
  end.

Definition script_of (n : script_name) : FS -> option FS :=
  match n with
  | EngineEmpty => PatchEngineEmpty.script
  | Default => PatchDefault.script
  | Main => PatchMain.script
  | Readme => PatchReadme.script
  | Service => PatchService.script
  end.

(** A text rewritten by a sequence of replacements, one frame after the
    other. *)
Inductive Chain : list (pystr * pystr) -> pystr -> pystr -> Prop :=
| Chain_nil c : Chain [] c c
| Chain_cons old new rest c c1 c2 :
    Rewrite old new c c1 -> Chain rest c1 c2 ->
    Chain ((old, new) :: rest) c c2.

(** A working directory holding one file. *)
Definition single_file (f : path) (c : pystr) : FS :=
  fun q => if String.eqb q f then Some c else None.

(** Running a script on the outcome of another run, and two outcomes that
    hold the same files. *)
Definition and_then (r : option FS) (script : FS -> option FS) : option FS :=
  match r with
  | Some fs => script fs
  | None => None
  end.

Definition same_files (r1 r2 : option FS) : Prop :=
  match r1, r2 with
  | Some f, Some g => forall q, f q = g q
  | None, None => True
  | _, _ => False
  end.

(** A working directory holding the README and the main source. *)
Definition two_files : FS :=
  fun q => if String.eqb q PatchReadme.file then Some PatchReadme.readme_example
           else if String.eqb q PatchMain.file then Some PatchMain.main_example
           else None.

(** A main source without anchors whose line ends in [\r\n], and the text
    read from it. *)
Definition crlf_example : pystr := py "fn main() {}" ++ [cr; lf].

Definition crlf_example_read : pystr := py "fn main() {}" ++ [lf].

(** ** The engine's configuration and MRL truncation *)

(** Modelled from the spec: the model descriptor and the configuration of
    section 3 (the Rust sources that declare them are not among the patch
    scripts), with the fields used below. *)
Inductive PoolingStrategy := LastToken | MeanPooling.

Record ModelDescriptor := {
  name : string;
  native_dim : nat;
  supports_mrl : bool;
  pooling_strategy : PoolingStrategy
}.

Record EmbeddingConfig := {
  model : ModelDescriptor;
  output_dim : option nat
}.

Definition effective_output_dim (cfg : EmbeddingConfig) : nat :=
  match output_dim cfg with
  | Some d => d
  | None => native_dim (model cfg)
  end.

(** Modelled from the spec: the [qwen3] family of the end-to-end example
    (native dimension 1024, MRL, last-token pooling). *)
Definition qwen3 : ModelDescriptor :=
  {| name := "qwen3"; native_dim := 1024; supports_mrl := true;
     pooling_strategy := LastToken |}.

(** A number as the documentation prints it. *)
Definition decimal (n : nat) : pystr :=
  py (NilEmpty.string_of_uint (Nat.to_uint n)).

(** Modelled from the spec: the MRL truncation of [InferenceEngine.compute]
    (section 4.1; the engine is not among the patch scripts).  The scalar
    type and its arithmetic are left open, so that the model covers the
    engine's floating-point numbers as well as exact ones. *)
Section MRL.

Variable F : Type.
Variable fzero : F.
Variables fadd fmul fdiv : F -> F -> F.
Variable fsqrt : F -> F.

Definition l2_norm (v : list F) : F :=
  fsqrt (fold_left (fun acc x => fadd acc (fmul x x)) v fzero).

Definition l2_normalize (v : list F) : list F :=
  let n := l2_norm v in map (fun x => fdiv x n) v.

(** The first [effective_dim] components, before renormalization. *)
Definition mrl_prefix (effective_dim : nat) (pooled : list F) : list F :=
  firstn effective_dim pooled.

(** "If [effective_dim < native_dim] and the model descriptor supports MRL,
    take the first [effective_dim] components of the pooled vector and
    L2-renormalize it." *)
Definition mrl_truncate (m : ModelDescriptor) (effective_dim : nat)
    (pooled : list F) : list F :=
  if (effective_dim <? native_dim m) && supports_mrl m
  then l2_normalize (mrl_prefix effective_dim pooled)
  else pooled.

End MRL.

(** The engine's numbers: binary floating point, with its own addition,
    multiplication, division and square root. *)
Definition float_l2_normalize : list PrimFloat.float -> list PrimFloat.float :=
  l2_normalize PrimFloat.float PrimFloat.zero
               PrimFloat.add PrimFloat.mul PrimFloat.div PrimFloat.sqrt.

Definition float_mrl_truncate :
    ModelDescriptor -> nat -> list PrimFloat.float -> list PrimFloat.float :=
  mrl_truncate PrimFloat.float PrimFloat.zero
               PrimFloat.add PrimFloat.mul PrimFloat.div PrimFloat.sqrt.

(** A pooled vector of 1024 floating-point components for [qwen3]. *)
Definition example_pooled : list PrimFloat.float :=
  map (fun i => PrimFloat.of_uint63 (Uint63.of_Z (Z.of_nat i))) (seq 1 1024).

(** ** Theory of [replace] *)

Section PyStrTheory.

Context {A : Type} {EqA : EqB A}.

(** *** Prefixes and occurrences *)

Lemma startswith_spec s p :
    startswith s p = true <-> exists t, s = p ++ t.
Proof.
  revert s; induction p as [|x p IH]; intros s; simpl.
  - split; [intros _; now exists s | reflexivity].
  - destruct s as [|y s]; simpl.
    + split; [discriminate | intros [t Ht]; discriminate].
    + rewrite andb_true_iff, ch_eqb_eq, IH. split.
      * intros [-> [t ->]]. now exists t.
      * intros [t Ht]. injection Ht as -> ->. split; [reflexivity | now exists t].
Qed.

Lemma startswith_app p t : startswith (p ++ t) p = true.
Proof. apply startswith_spec. now exists t. Qed.

Lemma occurs_spec p s :
    occurs p s = true <-> exists a b, s = a ++ p ++ b.
Proof.
  induction s as [|c s IH]; simpl.
  - rewrite orb_false_r, startswith_spec. split.
    + intros [t Ht]. now exists [], t.
    + intros [a [b H]]. destruct a; [now exists b | discriminate].
  - rewrite orb_true_iff, startswith_spec, IH. split.
    + intros [[t Ht] | [a [b Hab]]].
      * now exists [], t.
      * exists (c :: a), b. now rewrite Hab.
    + intros [a [b Hab]]. destruct a as [|c' a]; simpl in Hab.
      * left. now exists b.
      * right. injection Hab as _ ->. now exists a, b.
Qed.

Lemma occurs_false p s :
    occurs p s = false <-> forall a b, s <> a ++ p ++ b.
Proof.
  split.
  - intros H a b E.
    assert (occurs p s = true) by (apply occurs_spec; now exists a, b).
    congruence.
  - intros H. destruct (occurs p s) eqn:E; [|reflexivity].
    apply occurs_spec in E as [a [b E]]. now destruct (H a b).
Qed.

Lemma occurs_absurd p s a b : occurs p s = false -> s = a ++ p ++ b -> False.
Proof. intros H E. now apply (proj1 (occurs_false p s) H a b). Qed.

Lemma occurs_intro p a b : occurs p (a ++ p ++ b) = true.
Proof. apply occurs_spec. now exists a, b. Qed.

Lemma occurs_trans p q s :
    occurs p q = true -> occurs q s = true -> occurs p s = true.
Proof.
  rewrite !occurs_spec. intros [a [b ->]] [c [d ->]].
  exists (c ++ a), (b ++ d). now rewrite <- !app_assoc.
Qed.

Lemma comparable_spec p q :
    comparable p q = true <-> (exists w, p = q ++ w) \/ (exists w, q = p ++ w).
Proof.
  unfold comparable. now rewrite orb_true_iff, !startswith_spec.
Qed.

(** Two prefixes of one text are comparable. *)
Lemma comparable_app (u u' v v' : list A) :
    u ++ u' = v ++ v' -> comparable u v = true.
Proof.
  intros E. apply comparable_spec.
  apply app_eq_app in E as [l [[-> _] | [-> _]]]; [left | right]; now exists l.
Qed.

Lemma endswith_spec s p :
    endswith s p = true <-> exists f, s = f ++ p.
Proof.
  unfold endswith. rewrite startswith_spec. split.
  - intros [t Ht]. exists (rev t).
    rewrite <- (rev_involutive s), Ht, rev_app_distr. now rewrite rev_involutive.
  - intros [f ->]. exists (rev f). now rewrite rev_app_distr.
Qed.

(** *** Where an occurrence can lie in a text of three parts *)

Lemma occurrence_cases (x q y a p b : list A) :
    x ++ q ++ y = a ++ p ++ b ->
    (exists w, x = a ++ p ++ w) \/
    (exists w, a = x ++ q ++ w /\ y = w ++ p ++ b) \/
    (exists p1 p2, p = p1 ++ p2 /\ p1 <> [] /\ p2 <> [] /\
                   x = a ++ p1 /\ p2 ++ b = q ++ y) \/
    (exists q1 q2, q = q1 ++ q2 /\ q2 <> [] /\
                   a = x ++ q1 /\ q2 ++ y = p ++ b).
Proof.
  intros E. apply app_eq_app in E as [l [[Hx E] | [Ha E]]].
  - symmetry in E. apply app_eq_app in E as [m [[Hl E] | [Hp E]]].
    + left. exists m. now rewrite Hx, Hl.
    + destruct m as [|c m].
      * left. exists []. rewrite app_nil_r in Hp. now rewrite Hx, Hp, app_nil_r.
      * destruct l as [|d l].
        -- simpl in Hp. rewrite app_nil_r in Hx. destruct q as [|e q].
           ++ right; left. exists []. simpl in *. subst.
              split; [now rewrite app_nil_r | reflexivity].
           ++ right; right; right. exists [], (e :: q).
              repeat split; [discriminate | now rewrite app_nil_r | now rewrite Hp].
        -- right; right; left. exists (d :: l), (c :: m).
           repeat split; [exact Hp | discriminate | discriminate | exact Hx | now symmetry].
  - apply app_eq_app in E as [m [[Hq E] | [Hl E]]].
    + destruct m as [|c m].
      * right; left. exists []. rewrite app_nil_r in Hq. simpl in *. subst.
        split; [now rewrite app_nil_r | reflexivity].
      * right; right; right. exists l, (c :: m).
        repeat split; [exact Hq | discriminate | exact Ha | now symmetry].
    + right; left. exists m. now rewrite Ha, Hl.
Qed.

Lemma skipn_length_app (l m : list A) : skipn (length l) (l ++ m) = m.
Proof. induction l; simpl; auto. Qed.

Lemma no_overlapL_spec p q :
    no_overlapL p q = true ->
    forall p1 p2, p = p1 ++ p2 -> p1 <> [] -> p2 <> [] -> comparable p2 q = false.
Proof.
  unfold no_overlapL. rewrite forallb_forall. intros H p1 p2 -> H1 H2.
  specialize (H (length p1)). rewrite skipn_length_app in H.
  apply negb_true_iff, H, in_seq. rewrite length_app.
  destruct p1; [now destruct H1|]. destruct p2; [now destruct H2|]. simpl. lia.
Qed.

Lemma inside_at_spec ks p q :
    inside_at ks p q = true ->
    forall q1 q2, q = q1 ++ q2 -> q2 <> [] -> comparable q2 p = true ->
                  In (length q1) ks.
Proof.
  unfold inside_at. rewrite forallb_forall. intros H q1 q2 -> H2 C.
  specialize (H (length q1)). rewrite skipn_length_app, C in H. simpl in H.
  assert (I : In (length q1) (seq 0 (length (q1 ++ q2)))).
  { apply in_seq. rewrite length_app. destruct q2; [now destruct H2 | simpl; lia]. }
  apply H, existsb_exists in I as [k [Hk E]]. apply Nat.eqb_eq in E. now subst k.
Qed.

(** *** Equations of [replace] *)

Section ReplaceTheory.

Variables old new : list A.
Hypothesis old_nonempty : old <> [].

Lemma First_nil : First old [].
Proof.
  intros a b E. apply (f_equal (@length A)) in E.
  rewrite !length_app in E. simpl in E.
  destruct b; [reflexivity | simpl in E; lia].
Qed.

Lemma First_absent u : First old u -> occurs old u = false.
Proof.
  intros F. apply occurs_false. intros a b ->.
  specialize (F a (b ++ old)). rewrite <- !app_assoc in F.
  specialize (F eq_refl). destruct b; [|discriminate].
  simpl in F. now apply old_nonempty.
Qed.

Lemma replace_unfold s : replace old new s = replace_scan old new 0 s.
Proof. unfold replace. destruct old; [now destruct old_nonempty | reflexivity]. Qed.

Lemma replace_scan_skip x t :
      replace_scan old new (length x) (x ++ t) = replace_scan old new 0 t.
Proof.
  induction x as [|c x IH]; simpl; [|exact IH].
  destruct t; reflexivity.
Qed.

Lemma replace_hit t : replace old new (old ++ t) = new ++ replace old new t.
Proof.
  rewrite !replace_unfold.
  pose proof (startswith_app old t) as H.
  pose proof (replace_scan_skip (tl old) t) as K.
  destruct old as [|c o]; [now destruct old_nonempty|].
  simpl app in *. cbn [replace_scan]. rewrite H.
  cbn [length tl] in *.
  replace (S (length o) - 1) with (length o) by lia. now rewrite K.
Qed.

Lemma replace_miss c s :
      startswith (c :: s) old = false ->
      replace old new (c :: s) = c :: replace old new s.
Proof. intros H. rewrite !replace_unfold. cbn [replace_scan]. now rewrite H. Qed.

(** An absent anchor leaves the text as it is. *)
Lemma replace_absent s : occurs old s = false -> replace old new s = s.
Proof.
  induction s as [|c s IH]; intros H.
  - now rewrite replace_unfold.
  - simpl in H. apply orb_false_iff in H as [H1 H2].
    rewrite replace_miss by exact H1. now rewrite IH.
Qed.

(** The first match is rewritten and the scan resumes behind it. *)
Lemma replace_first u t :
      First old u -> replace old new (u ++ old ++ t) = u ++ new ++ replace old new t.
Proof.
  induction u as [|c u IH]; intros F.
  - apply replace_hit.
  - simpl app. rewrite replace_miss.
    + rewrite IH; [reflexivity|].
      intros a b E. apply (F (c :: a) b). simpl. now rewrite E.
    + destruct (startswith (c :: u ++ old ++ t) old) eqn:S; [|reflexivity].
      apply startswith_spec in S as [r S].
      assert (C : comparable (c :: u ++ old) old = true).
      { apply comparable_app with (u' := t) (v' := r).
        simpl. rewrite <- app_assoc. exact S. }
      apply comparable_spec in C as [[w C] | [w C]].
      * pose proof (F [] w) as Fw. simpl in Fw. specialize (Fw C). subst w.
        rewrite app_nil_r in C. apply (f_equal (@length A)) in C.
        simpl in C. rewrite length_app in C. lia.
      * apply (f_equal (@length A)) in C. simpl in C.
        rewrite !length_app in C. simpl in C. lia.
Qed.

(** Every text either lacks the anchor or splits at its first match. *)
Lemma split_first s :
      occurs old s = false \/ exists u t, s = u ++ old ++ t /\ First old u.
Proof.
  induction s as [|c s IH].
  - destruct (occurs old []) eqn:E; [|now left].
    apply occurs_spec in E as [a [b E]].
    destruct a; [|discriminate]. destruct old; [now destruct old_nonempty | discriminate].
  - destruct (startswith (c :: s) old) eqn:S.
    + right. apply startswith_spec in S as [t S].
      exists [], t. split; [exact S | apply First_nil].
    + destruct IH as [IH | [u [t [-> F]]]].
      * left. simpl. now rewrite S, IH.
      * right. exists (c :: u), t. split; [reflexivity|].
        intros a b E. destruct a as [|c' a].
        -- assert (startswith (c :: u ++ old ++ t) old = true); [|congruence].
           apply startswith_spec. exists (b ++ t).
           change (c :: u ++ old ++ t) with ((c :: u) ++ old ++ t).
           rewrite app_assoc, E. simpl. now rewrite <- app_assoc.
        -- simpl in E. injection E as _ E. now apply (F a b).
Qed.

(** Induction along the scan. *)
Lemma replace_ind (P : list A -> list A -> Prop) :
      (forall s, occurs old s = false -> P s s) ->
      (forall u t, First old u -> P t (replace old new t) ->
                   P (u ++ old ++ t) (u ++ new ++ replace old new t)) ->
      forall s, P s (replace old new s).
Proof.
  intros Hrest Hhit s.
  remember (length s) as n eqn:Hn. revert s Hn.
  induction n as [n IH] using lt_wf_ind. intros s ->.
  destruct (split_first s) as [H | [u [t [-> F]]]].
  - rewrite replace_absent by exact H. now apply Hrest.
  - rewrite replace_first by exact F. apply Hhit; [exact F|].
    apply (IH (length t)); [|reflexivity].
    rewrite !length_app. destruct old; [now destruct old_nonempty | simpl; lia].
Qed.

Lemma replace_present s :
      occurs old s = true -> occurs new (replace old new s) = true.
Proof.
  intros H. destruct (split_first s) as [N | [u [t [-> F]]]]; [congruence|].
  rewrite replace_first by exact F. apply occurs_intro.
Qed.

Lemma replace_Rewrite s : Rewrite old new s (replace old new s).
Proof. apply replace_ind; intros; now constructor. Qed.

Lemma Rewrite_replace s out : Rewrite old new s out -> out = replace old new s.
Proof.
  induction 1 as [s H | u t t' F _ IH].
  - now rewrite replace_absent.
  - now rewrite replace_first, IH.
Qed.

(** With no overlap from the left, an occurrence of the anchor in the
        output begins inside an inserted copy of [new]. *)
Lemma occurrence_in_replace :
      no_overlapL old new = true ->
      forall s a b, replace old new s = a ++ old ++ b ->
      exists a' c n1 n2,
        new = n1 ++ n2 /\ n2 <> [] /\ comparable n2 old = true /\
        a = a' ++ n1 /\ replace old new s = a' ++ new ++ c.
Proof.
  intros NO s.
  apply (replace_ind (fun _ out => forall a b, out = a ++ old ++ b ->
    exists a' c n1 n2,
      new = n1 ++ n2 /\ n2 <> [] /\ comparable n2 old = true /\
      a = a' ++ n1 /\ out = a' ++ new ++ c)); clear s.
  - intros s H a b E. destruct (occurs_absurd _ _ _ _ H E).
  - intros u t F IH a b E.
    destruct (occurrence_cases _ _ _ _ _ _ E)
      as [[w Hu] | [[w [Ha Hr]] | [(p1 & p2 & Hp & N1 & N2 & Hu & Ep) | (q1 & q2 & Hq & N2 & Ha & Eq)]]].
    + destruct (occurs_absurd _ _ _ _ (First_absent _ F) Hu).
    + destruct (IH w b Hr) as (a' & c & n1 & n2 & Hn & N2 & C & Hw & Ho).
      exists (u ++ new ++ a'), c, n1, n2. repeat split; auto.
      * rewrite Ha, Hw. now rewrite <- !app_assoc.
      * rewrite Ho. now rewrite <- !app_assoc.
    + apply comparable_app in Ep.
      rewrite (no_overlapL_spec _ _ NO p1 p2 Hp N1 N2) in Ep. discriminate.
    + exists u, (replace old new t), q1, q2. repeat split; auto.
      now apply comparable_app in Eq.
Qed.

Lemma app_eq_length (l1 l2 m1 m2 : list A) :
      l1 ++ l2 = m1 ++ m2 -> length l1 = length m1 -> l1 = m1 /\ l2 = m2.
Proof.
  revert m1; induction l1 as [|x l1 IH]; intros [|y m1] E L; try discriminate.
  - now split.
  - simpl in *. injection E as -> E. injection L as L.
    destruct (IH _ E L) as [-> ->]. now split.
Qed.

(** When the replacement is the anchor wrapped in [pre] and [post] and
        the anchor fits nowhere else, every anchor of the output is wrapped. *)
Lemma replace_wrapped pre post :
      new = pre ++ old ++ post ->
      no_overlapL old new = true ->
      inside_at [length pre] old new = true ->
      forall s a b, replace old new s = a ++ old ++ b ->
      exists a' b', a = a' ++ pre /\ b = post ++ b'.
Proof.
  intros Hnew NO IN s a b E.
  destruct (occurrence_in_replace NO _ _ _ E) as (a' & c & n1 & n2 & Hn & N2 & C & Ha & Ho).
  pose proof (inside_at_spec _ _ _ IN _ _ Hn N2 C) as [L | []].
  rewrite Hnew in Hn. symmetry in Hn.
  destruct (app_eq_length _ _ _ _ Hn (eq_sym L)) as [-> _].
  exists a', c. split; [exact Ha|].
  rewrite Ho, Hnew, Ha in E. rewrite <- !app_assoc in E.
  now do 3 apply app_inv_head in E.
Qed.

(** When the anchor neither runs into the replacement nor begins inside
        it, the output holds no anchor. *)
Lemma replace_removes :
      no_overlapL old new = true ->
      inside_at [] old new = true ->
      forall s, occurs old (replace old new s) = false.
Proof.
  intros NO IN s. apply occurs_false. intros a b E.
  destruct (occurrence_in_replace NO _ _ _ E) as (a' & c & n1 & n2 & Hn & N2 & C & _).
  exact (inside_at_spec _ _ _ IN _ _ Hn N2 C).
Qed.

End ReplaceTheory.

(** *** Undoing a wrapping replacement *)

(** When the replacement wraps the anchor and the anchor fits nowhere
      else, replacing [new] by [old] in the output gives the input back:
      the replacement only added [pre] and [post]. *)
Lemma replace_undo old new pre post :
    old <> [] ->
    new = pre ++ old ++ post ->
    no_overlapL old new = true ->
    inside_at [length pre] old new = true ->
    forall s, replace new old (replace old new s) = s.
Proof.
  intros Hold Hnew NO IN.
  assert (Nn : new <> []).
  { rewrite Hnew. intros E. apply app_eq_nil in E as [_ E].
    apply app_eq_nil in E as [E _]. now apply Hold. }
  apply (replace_ind old new Hold (fun s out => replace new old out = s)).
  - intros s H. apply replace_absent; [exact Nn|].
    destruct (occurs new s) eqn:O; [|reflexivity].
    assert (occurs old s = true); [|congruence].
    apply occurs_trans with (q := new); [|exact O].
    rewrite Hnew. apply occurs_intro.
  - intros u t F IH. rewrite replace_first; [now rewrite IH | exact Nn |].
    intros a b E.
    assert (E' : u ++ new ++ [] = (a ++ pre) ++ old ++ post ++ b).
    { rewrite app_nil_r, E, Hnew. now rewrite <- !app_assoc. }
    destruct (occurrence_cases _ _ _ _ _ _ E')
      as [[w Hu] | [[w [_ Hw]] | [(p1 & p2 & Hp & N1 & N2 & _ & Ep) | (q1 & q2 & Hq & N2 & Ha & Eq)]]].
    + destruct (occurs_absurd _ _ _ _ (First_absent old Hold u F) Hu).
    + symmetry in Hw. apply app_eq_nil in Hw as [_ Hw].
      apply app_eq_nil in Hw as [Hw _]. now destruct Hold.
    + apply comparable_app in Ep.
      rewrite (no_overlapL_spec _ _ NO p1 p2 Hp N1 N2) in Ep. discriminate.
    + apply comparable_app in Eq.
      pose proof (inside_at_spec _ _ _ IN _ _ Hq N2 Eq) as [L | []].
      assert (La : length a = length u).
      { apply (f_equal (@length A)) in Ha. rewrite !length_app in Ha. lia. }
      destruct (app_eq_length _ _ _ _ Ha La) as [-> _].
      apply app_inv_head in E. apply (f_equal (@length A)) in E.
      rewrite length_app in E. destruct b; [reflexivity | simpl in E; lia].
Qed.

(** *** Carrying an occurrence across a replacement *)

Lemma Subst_sym (a b s s' : list A) : Subst a b s s' -> Subst b a s' s.
Proof. induction 1; now constructor. Qed.

Lemma replace_Subst old new s :
    old <> [] -> Subst old new s (replace old new s).
Proof.
  intros N. apply replace_ind; [exact N | constructor | now constructor].
Qed.

Lemma tail_index (f l : list A) :
    f <> [] -> l <> [] -> In (length f) (seq 1 (length (f ++ l) - 1)).
Proof.
  intros Hf Hl. apply in_seq. rewrite length_app.
  destruct f; [now destruct Hf|]. destruct l; [now destruct Hl|]. simpl. lia.
Qed.

Lemma transfer_ok_spec p a b : transfer_ok p a b = true -> Transfers p a b.
Proof.
  unfold transfer_ok. rewrite !andb_true_iff, !forallb_forall.
  intros [[[H1 H2] H3] H4]. constructor.
  - now apply negb_true_iff.
  - intros H. rewrite H in H2. exact H2.
  - intros f l -> Hf Hl S. specialize (H3 _ (tail_index f l Hf Hl)).
    rewrite skipn_length_app, S in H3. exact H3.
  - intros f l -> Hf Hl S. specialize (H4 _ (tail_index f l Hf Hl)).
    rewrite skipn_length_app, S in H4. exact H4.
Qed.

Section Transfer.

Variables p a b : list A.
Hypothesis T : Transfers p a b.

(** A proper tail of [p] that begins the text still begins it after the
        replacement. *)
Lemma transfer_prefix t t' :
      Subst a b t t' ->
      forall f w, p = f ++ w -> f <> [] ->
                  startswith t w = true -> startswith t' w = true.
Proof.
  induction 1 as [s | u t t' _ IH]; intros f w Hp Hf S; [exact S|].
  apply startswith_spec in S as [r S]. apply startswith_spec.
  apply app_eq_app in S as [l [[Hu _] | [Hw E]]].
  - exists (l ++ b ++ t'). now rewrite Hu, <- app_assoc.
  - destruct l as [|c l].
    + rewrite app_nil_r in Hw. exists (b ++ t'). now rewrite Hw.
    + apply app_eq_app in E as [m [[Ha _] | [Hl _]]].
      * assert (Sb : startswith b (c :: l) = true).
        { apply (tr_right _ _ _ T (f ++ u) (c :: l)).
          - now rewrite Hp, Hw, <- app_assoc.
          - destruct f; [now destruct Hf | discriminate].
          - discriminate.
          - apply startswith_spec. now exists m. }
        apply startswith_spec in Sb as [m' Hb].
        exists (m' ++ t'). now rewrite Hw, Hb, <- !app_assoc.
      * exfalso. apply (occurs_absurd a p (f ++ u) m (tr_outside _ _ _ T)).
        now rewrite Hp, Hw, Hl, <- !app_assoc.
Qed.

(** An occurrence of [p] is carried across the replacement. *)
Lemma transfer s s' :
      Subst a b s s' -> occurs p s = true -> occurs p s' = true.
Proof.
  induction 1 as [s | u t t' H IH]; intros O; [exact O|].
  apply occurs_spec in O as [x [y E]].
  destruct (occurrence_cases _ _ _ _ _ _ E)
    as [[w Hu] | [[w [Hx Ht]] | [(p1 & p2 & Hp & N1 & N2 & Hu & Ep) | (q1 & q2 & Hq & N2 & Hx & Eq)]]].
  - rewrite Hu, <- !app_assoc. apply occurs_intro.
  - assert (O : occurs p t' = true).
    { apply IH, occurs_spec. now exists w, y. }
    apply occurs_spec in O as [w' [y' ->]].
    apply occurs_spec. exists (u ++ b ++ w'), y'. now rewrite <- !app_assoc.
  - apply app_eq_app in Ep as [m [[Hp2 _] | [Ha _]]].
    + exfalso. apply (occurs_absurd a p p1 m (tr_outside _ _ _ T)).
      now rewrite Hp, Hp2.
    + assert (Sb : startswith b p2 = true).
      { apply (tr_right _ _ _ T p1 p2 Hp N1 N2), startswith_spec. now exists m. }
      apply startswith_spec in Sb as [m' Hb].
      apply occurs_spec. exists x, (m' ++ t').
      now rewrite Hu, Hb, Hp, <- !app_assoc.
  - apply app_eq_app in Eq as [m [[Hq2 _] | [Hp2 Et]]].
    + assert (O : occurs p b = true).
      { apply (tr_inside _ _ _ T), occurs_spec. exists q1, m. now rewrite Hq, Hq2. }
      apply occurs_spec in O as [b1 [b2 ->]].
      apply occurs_spec. exists (u ++ b1), (b2 ++ t'). now rewrite <- !app_assoc.
    + destruct q1 as [|c q1].
      * exfalso. apply (occurs_absurd a p [] m (tr_outside _ _ _ T)).
        simpl in Hq. now rewrite Hp2, Hq.
      * assert (Eb : endswith b q2 = true).
        { apply (tr_left _ _ _ T (c :: q1) q2 Hq); [discriminate | exact N2|].
          apply startswith_spec. now exists m. }
        apply endswith_spec in Eb as [g Hb].
        destruct m as [|d m].
        -- apply occurs_spec. exists (u ++ g), t'.
           rewrite app_nil_r in Hp2. now rewrite Hb, Hp2, <- !app_assoc.
        -- assert (St : startswith t' (d :: m) = true).
           { apply (transfer_prefix t t' H q2 (d :: m) Hp2 N2).
             apply startswith_spec. now exists y. }
           apply startswith_spec in St as [y' ->].
           apply occurs_spec. exists (u ++ g), y'.
           now rewrite Hb, Hp2, <- !app_assoc.
Qed.

End Transfer.

(** *** Unbordered anchors and lengths *)

Lemma occurs_app_false p (a d : list A) :
  occurs p (a ++ d) = false -> occurs p a = false /\ occurs p d = false.
Proof.
  intros H. split.
  - destruct (occurs p a) eqn:O; [|reflexivity].
    apply occurs_spec in O as [x [y ->]].
    destruct (occurs_absurd p _ x (y ++ d) H). now rewrite <- !app_assoc.
  - destruct (occurs p d) eqn:O; [|reflexivity].
    apply occurs_spec in O as [x [y ->]].
    destruct (occurs_absurd p _ (a ++ x) y H). now rewrite <- !app_assoc.
Qed.

(** An anchor no tail of which begins it again is met first right after a
    text that does not hold it. *)
Lemma First_unbordered old u :
  old <> [] -> no_overlapL old old = true -> occurs old u = false -> First old u.
Proof.
  intros Hold NO Hu x y Exy.
  assert (E' : u ++ old ++ [] = x ++ old ++ y) by now rewrite app_nil_r.
  destruct (occurrence_cases _ _ _ _ _ _ E')
    as [[w Hw] | [[w [_ Hw]] | [(p1 & p2 & Hp & N1 & N2 & _ & Ep) | (q1 & q2 & Hq & N2 & _ & Eq)]]].
  - destruct (occurs_absurd _ _ _ _ Hu Hw).
  - symmetry in Hw. apply app_eq_nil in Hw as [_ Hw].
    apply app_eq_nil in Hw as [Hw _]. now destruct Hold.
  - apply comparable_app in Ep.
    rewrite (no_overlapL_spec _ _ NO p1 p2 Hp N1 N2) in Ep. discriminate.
  - rewrite app_nil_r in Eq.
    apply (f_equal (@length A)) in Eq. apply (f_equal (@length A)) in Hq.
    rewrite !length_app in *. destruct y; [reflexivity | simpl in Eq; lia].
Qed.

(** Rewriting the only occurrence of an unbordered anchor. *)
Lemma replace_single old new a d :
  old <> [] -> no_overlapL old old = true -> occurs old (a ++ d) = false ->
  replace old new (a ++ old ++ d) = a ++ new ++ d.
Proof.
  intros Hold NO H. destruct (occurs_app_false _ _ _ H) as [Ha Hd].
  rewrite replace_first; [|exact Hold | now apply First_unbordered].
  now rewrite (replace_absent old new Hold d Hd).
Qed.

(** A replacement longer than its anchor makes the text longer wherever
    the anchor occurs. *)
Lemma replace_grows old new s :
  old <> [] -> length old < length new -> occurs old s = true ->
  length s < length (replace old new s).
Proof.
  intros Hold L.
  apply (replace_ind old new Hold (fun s out =>
           length s <= length out /\ (occurs old s = true -> length s < length out))).
  - intros s' H. split; [lia | congruence].
  - intros u t _ [IH _]. rewrite !length_app. split; intros; lia.
Qed.

(** *** Where the scan resumes, and replacements that keep apart *)

Lemma prefix_of_longer (x y x' y' : list A) :
  x ++ y = x' ++ y' -> length x <= length x' -> exists w, x' = x ++ w.
Proof.
  intros E L. apply app_eq_app in E as [l [[Hx _] | [Hx _]]].
  - exists []. rewrite app_nil_r. rewrite Hx in L. rewrite length_app in L.
    destruct l; [now rewrite app_nil_r in Hx | simpl in L; lia].
  - now exists l.
Qed.

(** No occurrence of the anchor begins before its first match. *)
Lemma First_least (old u t a b : list A) :
  old <> [] -> First old u -> u ++ old ++ t = a ++ old ++ b ->
  length u <= length a.
Proof.
  intros Hold F E.
  destruct (Nat.le_gt_cases (length u) (length a)) as [L | L]; [exact L | exfalso].
  symmetry in E. destruct (prefix_of_longer _ _ _ _ E (Nat.lt_le_incl _ _ L)) as [l Hu].
  rewrite Hu, <- app_assoc in E. apply app_inv_head in E.
  assert (Ll : length old <= length (l ++ old)) by (rewrite length_app; lia).
  rewrite app_assoc in E.
  destruct (prefix_of_longer _ _ _ _ E Ll) as [w Hw].
  assert (W : w = []).
  { apply (F a w). now rewrite Hu, <- app_assoc, Hw. }
  subst w. rewrite app_nil_r in Hw. apply (f_equal (@length A)) in Hw.
  rewrite Hu in L. rewrite !length_app in *. lia.
Qed.

(** A text in front of which no anchor begins is passed over as it is. *)
Lemma replace_app_insulated (old new x t : list A) :
  old <> [] ->
  (forall a b, x ++ t = a ++ old ++ b -> length x <= length a) ->
  replace old new (x ++ t) = x ++ replace old new t.
Proof.
  intros Hold. induction x as [|c x IH]; intros H; [reflexivity|].
  simpl app. rewrite replace_miss; [|exact Hold |].
  - f_equal. apply IH. intros a b E.
    specialize (H (c :: a) b). simpl in H. rewrite E in H.
    specialize (H eq_refl). lia.
  - destruct (startswith (c :: x ++ t) old) eqn:S; [|reflexivity].
    apply startswith_spec in S as [r S].
    specialize (H [] r S). simpl in H. lia.
Qed.

Section Commute.

Variables old1 new1 old2 new2 : list A.
Hypothesis old1_nonempty : old1 <> [].
Hypothesis old2_nonempty : old2 <> [].

(** One half of the commutation: the first match of [old1] lies before
    every occurrence of [old2]. *)
Lemma commute_leftmost u t :
  apart old2 new1 = true ->
  First old1 u ->
  (forall a b, u ++ old1 ++ t = a ++ old2 ++ b ->
               length u + length old1 <= length a) ->
  replace old2 new2 (replace old1 new1 t) = replace old1 new1 (replace old2 new2 t) ->
  replace old2 new2 (replace old1 new1 (u ++ old1 ++ t))
  = replace old1 new1 (replace old2 new2 (u ++ old1 ++ t)).
Proof.
  intros Ap F H IH. apply andb_true_iff in Ap as [NO IN].
  rewrite (replace_first old1 new1 old1_nonempty u t F).
  assert (R2 : replace old2 new2 (u ++ old1 ++ t) = u ++ old1 ++ replace old2 new2 t).
  { rewrite !app_assoc. apply replace_app_insulated; [exact old2_nonempty|].
    intros a b E. rewrite <- app_assoc in E. rewrite length_app. now apply (H a b). }
  rewrite R2, (replace_first old1 new1 old1_nonempty u _ F), <- IH.
  rewrite !app_assoc. apply replace_app_insulated; [exact old2_nonempty|].
  intros a b E. rewrite <- app_assoc in E.
  destruct (occurrence_cases _ _ _ _ _ _ E)
    as [[w Hu] | [[w [Ha _]] | [(p1 & p2 & Hp & N1 & N2 & _ & Ep) | (q1 & q2 & Hq & N2 & _ & Eq)]]].
  - exfalso. specialize (H a (w ++ old1 ++ t)).
    rewrite Hu, <- !app_assoc in H. specialize (H eq_refl).
    rewrite !length_app in H. destruct old2; [now destruct old2_nonempty | simpl in H; lia].
  - rewrite Ha, !length_app. lia.
  - apply comparable_app in Ep.
    rewrite (no_overlapL_spec _ _ NO p1 p2 Hp N1 N2) in Ep. discriminate.
  - apply comparable_app in Eq.
    destruct (inside_at_spec _ _ _ IN _ _ Hq N2 Eq).
Qed.

End Commute.

(** An occurrence of [p] that begins at or behind the start of a [q] it
    cannot begin inside begins behind that [q]. *)
Lemma begins_behind (p q x y a b : list A) :
  p <> [] -> inside_at [] p q = true ->
  x ++ q ++ y = a ++ p ++ b -> length x <= length a ->
  length x + length q <= length a.
Proof.
  intros Np IN E L.
  destruct (occurrence_cases _ _ _ _ _ _ E)
    as [[w Hu] | [[w [Ha _]] | [(p1 & p2 & _ & N1 & _ & Hu & _) | (q1 & q2 & Hq & N2 & _ & Eq)]]].
  - rewrite Hu, !length_app in L.
    destruct p; [now destruct Np | simpl in L; lia].
  - rewrite Ha, !length_app. lia.
  - rewrite Hu, length_app in L. destruct p1; [now destruct N1 | simpl in L; lia].
  - apply comparable_app in Eq.
    destruct (inside_at_spec _ _ _ IN _ _ Hq N2 Eq).
Qed.

(** Two replacements whose anchors keep apart from each other and from the
    other replacement text can be applied in either order. *)
Lemma replace_commute old1 new1 old2 new2 :
  old1 <> [] -> old2 <> [] ->
  inside_at [] old2 old1 = true -> inside_at [] old1 old2 = true ->
  apart old2 new1 = true -> apart old1 new2 = true ->
  forall s, replace old2 new2 (replace old1 new1 s)
            = replace old1 new1 (replace old2 new2 s).
Proof.
  intros N1 N2 I21 I12 A21 A12 s.
  remember (length s) as n eqn:Hn. revert s Hn.
  induction n as [n IH] using lt_wf_ind. intros s ->.
  destruct (split_first old1 N1 s) as [H1 | [u1 [t1 [E1 F1]]]];
    destruct (split_first old2 N2 s) as [H2 | [u2 [t2 [E2 F2]]]].
  - now rewrite (replace_absent old1 new1 N1 s H1), (replace_absent old2 new2 N2 s H2),
      (replace_absent old1 new1 N1 s H1).
  - subst s. symmetry.
    apply (commute_leftmost old2 new2 old1 new1 N2 N1 u2 t2 A12 F2).
    + intros a b E. destruct (occurs_absurd _ _ _ _ H1 E).
    + symmetry. apply (IH (length t2)); [|reflexivity].
      rewrite !length_app. destruct old2; [now destruct N2 | simpl; lia].
  - subst s.
    apply (commute_leftmost old1 new1 old2 new2 N1 N2 u1 t1 A21 F1).
    + intros a b E. destruct (occurs_absurd _ _ _ _ H2 E).
    + apply (IH (length t1)); [|reflexivity].
      rewrite !length_app. destruct old1; [now destruct N1 | simpl; lia].
  - destruct (Nat.le_gt_cases (length u1) (length u2)) as [L | L].
    + subst s.
      apply (commute_leftmost old1 new1 old2 new2 N1 N2 u1 t1 A21 F1).
      * intros a b E. apply (begins_behind old2 old1 u1 t1 a b N2 I21 E).
        pose proof (First_least old2 u2 t2 a b N2 F2) as M.
        rewrite <- E2 in M. specialize (M E). lia.
      * apply (IH (length t1)); [|reflexivity].
        rewrite !length_app. destruct old1; [now destruct N1 | simpl; lia].
    + rewrite E2. symmetry.
      apply (commute_leftmost old2 new2 old1 new1 N2 N1 u2 t2 A12 F2).
      * intros a b E. apply (begins_behind old1 old2 u2 t2 a b N1 I12 E).
        pose proof (First_least old1 u1 t1 a b N1 F1) as M.
        rewrite <- E1, E2 in M. specialize (M E). lia.
      * symmetry. apply (IH (length t2)); [|reflexivity].
        rewrite E2, !length_app. destruct old2; [now destruct N2 | simpl; lia].
Qed.

(** *** Anchors with a border, characters and lengths *)

Lemma overlap_mirrored_spec old new :
  overlap_mirrored old new = true ->
  forall p1 p2, old = p1 ++ p2 -> p1 <> [] -> p2 <> [] ->
                comparable p2 new = true -> startswith old p2 = true.
Proof.
  unfold overlap_mirrored. rewrite forallb_forall. intros H p1 p2 -> H1 H2 C.
  specialize (H (length p1) (tail_index p1 p2 H1 H2)).
  rewrite skipn_length_app, C in H. exact H.
Qed.

(** The output holds no anchor when the anchor cannot begin inside the
    replacement and every run into it is mirrored in the anchor. *)
Lemma replace_removes_mirrored old new :
  old <> [] ->
  overlap_mirrored old new = true ->
  inside_at [] old new = true ->
  forall s, occurs old (replace old new s) = false.
Proof.
  intros Hold OM IN.
  apply (replace_ind old new Hold (fun _ out => occurs old out = false)).
  - intros s H. exact H.
  - intros u t F IH. apply occurs_false. intros a b E.
    destruct (occurrence_cases _ _ _ _ _ _ E)
      as [[w Hu] | [[w [_ Hr]] | [(p1 & p2 & Hp & N1 & N2 & Hu & Ep) | (q1 & q2 & Hq & N2 & _ & Eq)]]].
    + destruct (occurs_absurd _ _ _ _ (First_absent old Hold u F) Hu).
    + destruct (occurs_absurd _ _ _ _ IH Hr).
    + apply comparable_app in Ep.
      pose proof (overlap_mirrored_spec old new OM p1 p2 Hp N1 N2 Ep) as S.
      apply startswith_spec in S as [w Hw].
      assert (W : w = []).
      { apply (F a w). rewrite Hu, <- app_assoc. f_equal.
        rewrite Hw at 1. now rewrite app_assoc, <- Hp. }
      subst w. rewrite app_nil_r in Hw. rewrite Hw in Hp.
      apply (f_equal (@length A)) in Hp. rewrite length_app in Hp.
      destruct p1; [now destruct N1 | simpl in Hp; lia].
    + apply comparable_app in Eq.
      destruct (inside_at_spec _ _ _ IN _ _ Hq N2 Eq).
Qed.

(** Every character of the output is one of the input or of the
    replacement. *)
Lemma In_replace (old new : list A) c s :
  old <> [] -> In c (replace old new s) -> In c s \/ In c new.
Proof.
  intros Hold.
  apply (replace_ind old new Hold (fun s out => In c out -> In c s \/ In c new)).
  - intros s' _ H. now left.
  - intros u t _ IH H. rewrite !in_app_iff in *.
    destruct H as [H | [H | H]]; [now left; left | now right |].
    destruct (IH H) as [H' | H']; [left; right; now right | now right].
Qed.

Lemma replace_length_le (old new s : list A) :
  old <> [] -> length old <= length new ->
  length s <= length (replace old new s).
Proof.
  intros Hold L.
  apply (replace_ind old new Hold (fun s out => length s <= length out)).
  - intros; lia.
  - intros u t _ IH. rewrite !length_app. lia.
Qed.

(** A replacement keeps the occurrences of [p] it cannot touch, and adds
    none it cannot build. *)
Lemma replace_keeps p old new s :
  old <> [] -> transfer_ok p old new = true ->
  occurs p s = true -> occurs p (replace old new s) = true.
Proof.
  intros N T. apply (transfer p old new (transfer_ok_spec _ _ _ T)).
  now apply replace_Subst.
Qed.

Lemma replace_adds_none p old new s :
  old <> [] -> transfer_ok p new old = true ->
  occurs p s = false -> occurs p (replace old new s) = false.
Proof.
  intros N T H. destruct (occurs p (replace old new s)) eqn:O; [|reflexivity].
  rewrite <- H. symmetry.
  apply (transfer p new old (transfer_ok_spec _ _ _ T) (replace old new s) s); [|exact O].
  now apply Subst_sym, replace_Subst.
Qed.

(** *** Texts that split the scan *)

(** A separator that no anchor can overlap splits the scan in two. *)
Lemma replace_app_sep (old new sep x y : list A) :
  old <> [] -> apart old sep = true ->
  replace old new (x ++ sep ++ y)
  = replace old new x ++ sep ++ replace old new y.
Proof.
  intros Hold Ap. apply andb_true_iff in Ap as [NO IN].
  apply (replace_ind old new Hold (fun x out =>
           replace old new (x ++ sep ++ y) = out ++ sep ++ replace old new y)).
  - intros s Hs. rewrite app_assoc.
    rewrite replace_app_insulated; [now rewrite <- app_assoc | exact Hold |].
    intros a b E. rewrite <- app_assoc in E.
    destruct (occurrence_cases _ _ _ _ _ _ E)
      as [[w Hw] | [[w [Hw _]] | [(p1 & p2 & Hp & N1 & N2 & _ & Ep)
                                 | (q1 & q2 & Hq & N2 & _ & Eq)]]].
    + destruct (occurs_absurd _ _ _ _ Hs Hw).
    + rewrite Hw, !length_app. lia.
    + apply comparable_app in Ep.
      rewrite (no_overlapL_spec _ _ NO p1 p2 Hp N1 N2) in Ep. discriminate.
    + apply comparable_app in Eq.
      destruct (inside_at_spec _ _ _ IN q1 q2 Hq N2 Eq).
  - intros u t F IH. rewrite <- !app_assoc.
    rewrite replace_first by assumption. now rewrite IH.
Qed.

(** So does an occurrence of an unbordered anchor, which the scan
    rewrites. *)
Lemma replace_app_anchor (old new x y : list A) :
  old <> [] -> no_overlapL old old = true ->
  replace old new (x ++ old ++ y)
  = replace old new x ++ new ++ replace old new y.
Proof.
  intros Hold NO.
  apply (replace_ind old new Hold (fun x out =>
           replace old new (x ++ old ++ y) = out ++ new ++ replace old new y)).
  - intros s Hs. apply replace_first; [exact Hold | now apply First_unbordered].
  - intros u t F IH. rewrite <- !app_assoc.
    rewrite replace_first by assumption. now rewrite IH.
Qed.

(** A property of characters that the text and the replacement have is
    kept. *)
Lemma forallb_replace (P : A -> bool) (old new s : list A) :
  old <> [] -> forallb P new = true -> forallb P s = true ->
  forallb P (replace old new s) = true.
Proof.
  intros Hold Hn Hs. apply forallb_forall. intros c Hc.
  destruct (In_replace old new c s Hold Hc) as [H | H].
  - exact (proj1 (forallb_forall P s) Hs c H).
  - exact (proj1 (forallb_forall P new) Hn c H).
Qed.

(** Every occurrence begins at one of the offsets. *)
Lemma positions_from_spec i p (a r : list A) :
  In (i + length a) (positions_from i p (a ++ p ++ r)).
Proof.
  revert i. induction a as [|c a IH]; intros i.
  - rewrite Nat.add_0_r. change ([] ++ p ++ r) with (p ++ r).
    destruct (p ++ r) eqn:E; cbn [positions_from]; rewrite <- E;
      rewrite startswith_app; now left.
  - change ((c :: a) ++ p ++ r) with (c :: (a ++ p ++ r)).
    cbn [positions_from]. apply in_or_app. right.
    replace (i + length (c :: a)) with (S i + length a) by (simpl; lia).
    apply IH.
Qed.

(** *** The text in front of a first occurrence *)

Lemma before_first_cons p c (s : list A) :
  before_first p (c :: s)
  = if startswith (c :: s) p then [] else c :: before_first p s.
Proof. reflexivity. Qed.

Lemma before_first_First p (u t : list A) :
  p <> [] -> First p u -> before_first p (u ++ p ++ t) = u.
Proof.
  intros Hp. induction u as [|c u IH]; intros F.
  - destruct p as [|x p]; [now destruct Hp|].
    change ([] ++ (x :: p) ++ t) with (x :: (p ++ t)).
    rewrite before_first_cons.
    change (x :: (p ++ t)) with ((x :: p) ++ t).
    now rewrite startswith_app.
  - change ((c :: u) ++ p ++ t) with (c :: (u ++ p ++ t)).
    rewrite before_first_cons.
    destruct (startswith (c :: u ++ p ++ t) p) eqn:S.
    + exfalso. apply startswith_spec in S as [r S].
      assert (E : p ++ r = ((c :: u) ++ p) ++ t)
        by (now rewrite <- app_assoc, <- S).
      assert (L : length p <= length ((c :: u) ++ p))
        by (rewrite length_app; lia).
      destruct (prefix_of_longer _ _ _ _ E L) as [w Hw].
      assert (W : w = []) by (apply (F [] w); exact Hw).
      subst w. rewrite app_nil_r in Hw.
      apply (f_equal (@length A)) in Hw. rewrite length_app in Hw.
      simpl in Hw. lia.
    + f_equal. apply IH. intros a b E. apply (F (c :: a) b).
      simpl. now rewrite E.
Qed.

(** An occurrence in a prefix decides where the first one is. *)
Lemma before_first_app p (x y : list A) :
  occurs p x = true -> before_first p (x ++ y) = before_first p x.
Proof.
  induction x as [|c x IH]; intros H.
  - destruct p; [now destruct y | discriminate H].
  - change ((c :: x) ++ y) with (c :: (x ++ y)).
    rewrite !before_first_cons.
    destruct (startswith (c :: x) p) eqn:S.
    + apply startswith_spec in S as [r S].
      assert (S' : startswith (c :: x ++ y) p = true).
      { apply startswith_spec. exists (r ++ y).
        change (c :: x ++ y) with ((c :: x) ++ y).
        now rewrite S, app_assoc. }
      now rewrite S'.
    + cbn [occurs] in H. rewrite S in H. cbn [orb] in H.
      destruct (startswith (c :: x ++ y) p) eqn:S'.
      * exfalso. apply startswith_spec in S' as [r S'].
        apply occurs_spec in H as [a [b Hx]].
        assert (E : p ++ r = (c :: x) ++ y) by (now rewrite <- S').
        assert (L : length p <= length (c :: x))
          by (rewrite Hx; simpl; rewrite !length_app; lia).
        destruct (prefix_of_longer _ _ _ _ E L) as [w Hw].
        assert (T : startswith (c :: x) p = true)
          by (apply startswith_spec; now exists w).
        congruence.
      * f_equal. now apply IH.
Qed.

(** A replacement in front of which the marker [m] stands leaves the text
    in front of the first [m] as it is. *)
Lemma before_first_kept (old new m u t : list A) :
  old <> [] -> First old u -> occurs m u = true ->
  before_first m (replace old new (u ++ old ++ t))
  = before_first m (u ++ old ++ t).
Proof.
  intros Hold F H. rewrite replace_first by assumption.
  now rewrite !(before_first_app m u) by exact H.
Qed.

(** When the anchor stands in front of the first [m], and [m] keeps clear
    of anchor and replacement, the replacement stands in front of the
    first [m] of the rewritten text, with everything it holds. *)
Lemma before_first_replace (old new b m s : list A) :
  old <> [] ->
  transfer_ok m old new = true -> transfer_ok m new old = true ->
  no_overlapL new m = true -> occurs b new = true ->
  occurs m s = true -> occurs old (before_first m s) = true ->
  occurs m (replace old new s) = true /\
  occurs b (before_first m (replace old new s)) = true.
Proof.
  intros Hold T1 T2 NO Hb Hm Ho.
  assert (Hm0 : m <> []).
  { intros ->. assert (B : before_first [] s = []) by (now destruct s).
    rewrite B in Ho. destruct old; [now destruct Hold | discriminate Ho]. }
  assert (Hout : occurs m (replace old new s) = true)
    by (apply replace_keeps; assumption).
  split; [exact Hout|].
  destruct (split_first m Hm0 s) as [N | (x & y & -> & Fx)]; [congruence|].
  rewrite (before_first_First m x y Hm0 Fx) in Ho.
  pose proof (First_absent m Hm0 x Fx) as Nx.
  destruct (split_first old Hold x) as [N | (u & v & -> & Fu)]; [congruence|].
  rewrite <- !app_assoc in Hout |- *.
  rewrite (replace_first old new Hold u _ Fu) in Hout |- *.
  remember (replace old new (v ++ m ++ y)) as R eqn:HR. clear HR.
  destruct (split_first m Hm0 (u ++ new ++ R)) as [N | (X & Y & E & FX)];
    [congruence|].
  rewrite E, (before_first_First m X Y Hm0 FX).
  destruct (transfer_ok_spec _ _ _ T2) as [To Ti Tr Tl].
  destruct (occurrence_cases _ _ _ _ _ _ E)
    as [[w Hw] | [[w [Hw _]] | [(p1 & p2 & Hp & N1 & N2 & Hu & Ep)
                               | (q1 & q2 & Hq & N2 & HX & Eq)]]].
  - destruct (occurs_absurd m _ X (w ++ old ++ v) Nx).
    now rewrite Hw, <- !app_assoc.
  - apply (occurs_trans b new X Hb). rewrite Hw. apply occurs_intro.
  - exfalso. apply comparable_app in Ep.
    apply comparable_spec in Ep as [[w Hw] | [w Hw]].
    + rewrite Hp, Hw in To.
      rewrite (occurs_intro new p1 w) in To. discriminate.
    + assert (S : startswith new p2 = true)
        by (apply startswith_spec; now exists w).
      apply (Tr p1 p2 Hp N1 N2) in S. apply startswith_spec in S as [w' Hw'].
      apply (occurs_absurd m _ X (w' ++ v) Nx).
      now rewrite Hu, Hw', Hp, <- !app_assoc.
  - exfalso. apply comparable_app in Eq. destruct q1 as [|q0 q1].
    + simpl in Hq. subst q2.
      apply comparable_spec in Eq as [[w Hw] | [w Hw]].
      * assert (O : occurs m new = true)
          by (rewrite Hw; apply (occurs_intro m [] w)).
        apply Ti in O. apply occurs_spec in O as [a' [b' Ho']].
        apply (occurs_absurd m _ (u ++ a') (b' ++ v) Nx).
        now rewrite Ho', <- !app_assoc.
      * assert (O : occurs new (new ++ w) = true)
          by apply (occurs_intro new [] w).
        rewrite Hw in To. congruence.
    + assert (N1 : q0 :: q1 <> []) by discriminate.
      rewrite (no_overlapL_spec _ _ NO (q0 :: q1) q2 Hq N1 N2) in Eq.
      discriminate.
Qed.

End PyStrTheory.

(** ** Facts about the literals *)

Ltac literal_nonempty :=
  let H := fresh in intro H; apply (f_equal (@length N)) in H;
  vm_compute in H; discriminate.

Ltac by_evaluation := vm_compute; reflexivity.

(** ** patch_engine_empty.py *)

Lemma old_line_nonempty : PatchEngineEmpty.old_line <> [].
Proof. literal_nonempty. Qed.

Lemma new_lines_wrap :
  PatchEngineEmpty.new_lines =
  (PatchEngineEmpty.guard ++ nl ++ PatchEngineEmpty.indent)
    ++ PatchEngineEmpty.old_line ++ [].
Proof. by_evaluation. Qed.

Lemma engine_no_overlap :
  no_overlapL PatchEngineEmpty.old_line PatchEngineEmpty.new_lines = true.
Proof. by_evaluation. Qed.

Lemma engine_inside :
  inside_at [length (PatchEngineEmpty.guard ++ nl ++ PatchEngineEmpty.indent)]
            PatchEngineEmpty.old_line PatchEngineEmpty.new_lines = true.
Proof. by_evaluation. Qed.

(** Every anchor line of the patched text follows the guard. *)
Lemma engine_guarded content a b :
  PatchEngineEmpty.patch content = a ++ PatchEngineEmpty.old_line ++ b ->
  exists a', a = a' ++ PatchEngineEmpty.guard ++ nl ++ PatchEngineEmpty.indent.
Proof.
  intros H.
  destruct (replace_wrapped _ _ old_line_nonempty _ _ new_lines_wrap
              engine_no_overlap engine_inside content a b H) as (a' & b' & Ha & _).
  now exists a'.
Qed.



(** The patch inserts a generic [anyhow] error, and no typed error: on the
    example source the patched text returns
    [Err(anyhow::anyhow!(...))] and nowhere names [EmptyInputError]. *)
Lemma engine_error_untyped_counterexample :
  str_in PatchEngineEmpty.old_line PatchEngineEmpty.engine_example = true /\
  str_in PatchEngineEmpty.generic_error
         (PatchEngineEmpty.patch PatchEngineEmpty.engine_example) = true /\
  str_in PatchEngineEmpty.typed_error
         (PatchEngineEmpty.patch PatchEngineEmpty.engine_example) = false.
Proof. repeat split; by_evaluation. Qed.

Lemma engine_typed_error_not_built :
  transfer_ok PatchEngineEmpty.typed_error
              PatchEngineEmpty.new_lines PatchEngineEmpty.old_line = true.
Proof. by_evaluation. Qed.

(** C2, as the code has it: the failure of the inserted guard is the
    generic [anyhow] error with the message "Cannot embed empty token
    sequence"; every extraction line of the patched text follows a guard
    returning exactly that expression, and the patch brings no
    [EmptyInputError] into a text that did not name it. *)
Theorem engine_error_is_generic_anyhow content a b :
  str_in PatchEngineEmpty.typed_error content = false ->
  PatchEngineEmpty.patch content = a ++ PatchEngineEmpty.old_line ++ b ->
  str_in PatchEngineEmpty.typed_error (PatchEngineEmpty.patch content) = false /\
  exists a', a = a' ++ py "if actual_len == 0 { return "
                    ++ PatchEngineEmpty.generic_error ++ py "; }"
                    ++ nl ++ PatchEngineEmpty.indent.
Proof.
  intros Hno H. split.
  - apply replace_adds_none;
      [exact old_line_nonempty | exact engine_typed_error_not_built | exact Hno].
  - destruct (engine_guarded content a b H) as [a' ->]. exists a'.
    unfold PatchEngineEmpty.guard. now rewrite <- !app_assoc.
Qed.

Lemma engine_error_is_generic_anyhow_witness :
  str_in PatchEngineEmpty.typed_error PatchEngineEmpty.engine_example = false /\
  PatchEngineEmpty.patch PatchEngineEmpty.engine_example =
    PatchEngineEmpty.engine_example_before ++ PatchEngineEmpty.old_line ++ [] /\
  str_in PatchEngineEmpty.typed_error
         (PatchEngineEmpty.patch PatchEngineEmpty.engine_example) = false /\
  exists a', PatchEngineEmpty.engine_example_before =
             a' ++ py "if actual_len == 0 { return "
                ++ PatchEngineEmpty.generic_error ++ py "; }"
                ++ nl ++ PatchEngineEmpty.indent.
Proof.
  split; [by_evaluation|]. split; [by_evaluation|].
  apply (engine_error_is_generic_anyhow PatchEngineEmpty.engine_example
           PatchEngineEmpty.engine_example_before []); by_evaluation.
Defined.

Lemma engine_pooling_index_survives :
  transfer_ok PatchEngineEmpty.pooling_index
              PatchEngineEmpty.old_line PatchEngineEmpty.new_lines = true.
Proof. by_evaluation. Qed.

(** Removing the guards from the patched text gives the source back: the
    patch adds the guard in front of the line and changes nothing else. *)
Lemma engine_patch_undone content :
  str_replace (PatchEngineEmpty.patch content)
              PatchEngineEmpty.new_lines PatchEngineEmpty.old_line = content.
Proof.
  exact (replace_undo _ _ _ _ old_line_nonempty new_lines_wrap
           engine_no_overlap engine_inside content).
Qed.

(** C3: an engine source that extracts the hidden state at index
    [actual_len - 1] still does so after the patch; the text inserted in
    front of the line holds no [narrow] call, and taking the guards out
    again gives the source back, so no extraction is added, dropped or
    given another index. *)
Theorem engine_pooling_index_kept content :
  str_in PatchEngineEmpty.pooling_index content = true ->
  str_in PatchEngineEmpty.pooling_index (PatchEngineEmpty.patch content) = true /\
  str_in (py "narrow")
         (PatchEngineEmpty.guard ++ nl ++ PatchEngineEmpty.indent) = false /\
  str_replace (PatchEngineEmpty.patch content)
              PatchEngineEmpty.new_lines PatchEngineEmpty.old_line = content.
Proof.
  intros H. split; [|split].
  - apply replace_keeps;
      [exact old_line_nonempty | exact engine_pooling_index_survives | exact H].
  - by_evaluation.
  - apply engine_patch_undone.
Qed.

Lemma engine_pooling_index_kept_witness :
  str_in PatchEngineEmpty.pooling_index PatchEngineEmpty.engine_example = true /\
  str_in PatchEngineEmpty.pooling_index
         (PatchEngineEmpty.patch PatchEngineEmpty.engine_example) = true /\
  str_in (py "narrow")
         (PatchEngineEmpty.guard ++ nl ++ PatchEngineEmpty.indent) = false /\
  str_replace (PatchEngineEmpty.patch PatchEngineEmpty.engine_example)
              PatchEngineEmpty.new_lines PatchEngineEmpty.old_line
  = PatchEngineEmpty.engine_example.
Proof.
  split; [by_evaluation|].
  apply (engine_pooling_index_kept PatchEngineEmpty.engine_example); by_evaluation.
Defined.

(** ** patch_main.py *)

Lemma old_mrl_help_nonempty : PatchMain.old_mrl_help <> [].
Proof. literal_nonempty. Qed.

Lemma old_log_nonempty : PatchMain.old_log <> [].
Proof. literal_nonempty. Qed.




Lemma old_log_survives_help :
  transfer_ok PatchMain.old_log PatchMain.old_mrl_help PatchMain.new_mrl_help = true.
Proof. by_evaluation. Qed.

Lemma new_help_survives_log :
  transfer_ok PatchMain.new_mrl_help PatchMain.old_log PatchMain.new_log = true.
Proof. by_evaluation. Qed.



(** ** patch_service.py *)

Lemma old_bindings_nonempty : PatchService.old_bindings <> [].
Proof. literal_nonempty. Qed.

Lemma bindings_no_overlap :
  no_overlapL PatchService.old_bindings PatchService.new_bindings = true.
Proof. by_evaluation. Qed.

Lemma bindings_never_inside :
  inside_at [] PatchService.old_bindings PatchService.new_bindings = true.
Proof. by_evaluation. Qed.

(** The patched service text holds no anchor any more. *)
Lemma service_anchor_removed content :
  str_in PatchService.old_bindings (PatchService.patch content) = false.
Proof.
  exact (replace_removes _ _ old_bindings_nonempty
           bindings_no_overlap bindings_never_inside content).
Qed.

Lemma bindings_unbordered :
  no_overlapL PatchService.old_bindings PatchService.old_bindings = true.
Proof. by_evaluation. Qed.

Lemma mrl_binding_inserted :
  str_in PatchService.mrl_binding PatchService.new_bindings = true.
Proof. by_evaluation. Qed.

(** The script does not look for the spawn: on a service source that
    spawns the thread in front of the adjacent bindings, the binding is
    inserted all the same, behind the spawn call; the text in front of the
    spawn call holds no [mrl_dim] binding. *)
Lemma service_binding_behind_spawn_counterexample :
  str_in PatchService.old_bindings PatchService.service_spawn_first_example = true /\
  str_in PatchService.new_bindings
         (PatchService.patch PatchService.service_spawn_first_example) = true /\
  before_first PatchService.spawn_call
               (PatchService.patch PatchService.service_spawn_first_example)
    = lines [ py "    fn spawn_worker(&self) {"; py "        " ] /\
  PatchService.bound_before PatchService.mrl_binding PatchService.spawn_call
    (PatchService.patch PatchService.service_spawn_first_example) = false.
Proof. repeat split; by_evaluation. Qed.

(** The first pair of adjacent bindings, with the text in front of it and
    the text behind it. *)
Lemma service_first_bindings content :
  str_in PatchService.old_bindings content = true ->
  exists u t,
    content = u ++ PatchService.old_bindings ++ t /\
    First PatchService.old_bindings u /\
    PatchService.patch content
      = u ++ PatchService.new_bindings ++ PatchService.patch t.
Proof.
  intros Hin.
  destruct (split_first _ old_bindings_nonempty content)
    as [N | (u & t & -> & F)].
  - unfold str_in in Hin. congruence.
  - exists u, t. split; [reflexivity|]. split; [exact F|].
    exact (replace_first _ PatchService.new_bindings old_bindings_nonempty u t F).
Qed.

(** C5, as the code has it: the anchor is the [model] binding directly
    followed by the [cache_dir] binding, the replacement is the same two
    bindings with the [mrl_dim] binding between them.  On a service source
    holding the anchor the script rewrites the occurrences met by the scan
    and nothing else; the patched text holds the three bindings in a row,
    and no place is left where [cache_dir] directly follows [model].  The
    text in front of the first anchor stays in front of the inserted
    binding, the text behind it stays behind.  So, for a spawn call that
    keeps clear of the bindings: when the anchor stands in front of the
    first spawn call of the source, the [mrl_dim] binding stands in front
    of the first spawn call of the patched text; and when a spawn call
    stands in front of the first anchor, the text in front of the first
    spawn call is left as it was. *)
Theorem service_captures_mrl_dim content :
  str_in PatchService.old_bindings content = true ->
  PatchService.old_bindings =
    PatchService.model_binding ++ nl ++ PatchService.indent
      ++ PatchService.cache_binding /\
  PatchService.new_bindings =
    PatchService.model_binding ++ nl ++ PatchService.indent
      ++ PatchService.mrl_binding ++ nl ++ PatchService.indent
      ++ PatchService.cache_binding /\
  Rewrite PatchService.old_bindings PatchService.new_bindings
          content (PatchService.patch content) /\
  str_in PatchService.new_bindings (PatchService.patch content) = true /\
  str_in PatchService.old_bindings (PatchService.patch content) = false /\
  (exists u t,
     content = u ++ PatchService.old_bindings ++ t /\
     str_in PatchService.old_bindings u = false /\
     PatchService.patch content =
       u ++ PatchService.model_binding ++ nl ++ PatchService.indent
         ++ PatchService.mrl_binding ++ nl ++ PatchService.indent
         ++ PatchService.cache_binding ++ PatchService.patch t) /\
  (forall spawn,
     PatchService.clear_of_bindings spawn = true ->
     PatchService.bound_before PatchService.old_bindings spawn content = true ->
     PatchService.bound_before PatchService.mrl_binding spawn
       (PatchService.patch content) = true) /\
  (forall spawn u t,
     content = u ++ PatchService.old_bindings ++ t ->
     str_in PatchService.old_bindings u = false ->
     str_in spawn u = true ->
     before_first spawn (PatchService.patch content) = before_first spawn content).
Proof.
  intros Hin. split; [by_evaluation|]. split; [by_evaluation|].
  split; [|split; [|split; [|split; [|split]]]].
  - apply replace_Rewrite. exact old_bindings_nonempty.
  - apply replace_present; [exact old_bindings_nonempty | exact Hin].
  - apply service_anchor_removed.
  - destruct (service_first_bindings content Hin) as (u & t & E & F & P).
    exists u, t. split; [exact E|].
    split; [exact (First_absent _ old_bindings_nonempty u F)|].
    rewrite P. reflexivity.
  - intros spawn C B. unfold PatchService.clear_of_bindings in C.
    apply andb_true_iff in C as [C NO]. apply andb_true_iff in C as [T1 T2].
    unfold PatchService.bound_before in B. apply andb_true_iff in B as [Bm Bo].
    destruct (before_first_replace PatchService.old_bindings
                PatchService.new_bindings PatchService.mrl_binding spawn content
                old_bindings_nonempty T1 T2 NO mrl_binding_inserted Bm Bo)
      as [O1 O2].
    unfold PatchService.bound_before, PatchService.patch, str_replace, str_in.
    now rewrite O1, O2.
  - intros spawn u t E Hu Hs. subst content.
    apply before_first_kept; [exact old_bindings_nonempty | | exact Hs].
    apply First_unbordered;
      [exact old_bindings_nonempty | exact bindings_unbordered | exact Hu].
Qed.

Lemma service_captures_mrl_dim_witness :
  str_in PatchService.old_bindings PatchService.service_example = true /\
  PatchService.clear_of_bindings PatchService.spawn_call = true /\
  PatchService.bound_before PatchService.old_bindings PatchService.spawn_call
    PatchService.service_example = true /\
  str_in PatchService.new_bindings
         (PatchService.patch PatchService.service_example) = true /\
  str_in PatchService.old_bindings
         (PatchService.patch PatchService.service_example) = false /\
  PatchService.bound_before PatchService.mrl_binding PatchService.spawn_call
    (PatchService.patch PatchService.service_example) = true.
Proof.
  assert (H : str_in PatchService.old_bindings PatchService.service_example = true)
    by by_evaluation.
  assert (C : PatchService.clear_of_bindings PatchService.spawn_call = true)
    by by_evaluation.
  assert (B : PatchService.bound_before PatchService.old_bindings
                PatchService.spawn_call PatchService.service_example = true)
    by by_evaluation.
  destruct (service_captures_mrl_dim PatchService.service_example H)
    as (_ & _ & _ & H4 & H5 & _ & H7 & _).
  split; [exact H|]. split; [exact C|]. split; [exact B|].
  split; [exact H4|]. split; [exact H5|].
  exact (H7 PatchService.spawn_call C B).
Defined.

(** ** patch_readme.py and the documentation of the unset option *)

Lemma old_config_table_nonempty : PatchReadme.old_config_table <> [].
Proof. literal_nonempty. Qed.

Lemma old_models_table_nonempty : PatchReadme.old_models_table <> [].
Proof. literal_nonempty. Qed.

Lemma mrl_row_survives_models :
  transfer_ok PatchReadme.mrl_row
              PatchReadme.old_models_table PatchReadme.new_models_table = true.
Proof. by_evaluation. Qed.

Lemma old_models_survives_config :
  transfer_ok PatchReadme.old_models_table
              PatchReadme.old_config_table PatchReadme.new_config_table = true.
Proof. by_evaluation. Qed.

Lemma main_help_documented content :
  str_in PatchMain.old_mrl_help content = true ->
  str_in PatchMain.help_default (PatchMain.patch content) = true.
Proof.
  intros H. apply occurs_trans with (q := PatchMain.new_mrl_help); [by_evaluation|].
  apply replace_keeps; [exact old_log_nonempty | exact new_help_survives_log |].
  apply replace_present; [exact old_mrl_help_nonempty | exact H].
Qed.

Lemma readme_row_documented readme :
  str_in PatchReadme.old_config_table readme = true ->
  str_in PatchReadme.mrl_row (PatchReadme.patch readme) = true.
Proof.
  intros H.
  apply replace_keeps; [exact old_models_table_nonempty | exact mrl_row_survives_models |].
  apply occurs_trans with (q := PatchReadme.new_config_table); [by_evaluation|].
  apply replace_present; [exact old_config_table_nonempty | exact H].
Qed.

Lemma readme_section_documented readme :
  str_in PatchReadme.old_models_table readme = true ->
  str_in PatchReadme.mrl_section_default (PatchReadme.patch readme) = true.
Proof.
  intros H.
  apply occurs_trans with (q := PatchReadme.new_models_table); [by_evaluation|].
  apply replace_present; [exact old_models_table_nonempty|].
  apply replace_keeps;
    [exact old_config_table_nonempty | exact old_models_survives_config | exact H].
Qed.

(** C6: after the scripts have run on a main source holding the
    [MRL_DIM] attribute and on a README holding both tables, the help
    text of the attribute, the [--mrl-dim] row of the configuration table
    and the MRL section each say that the unset option defaults to the
    model's native dimension, 1024 for qwen3; and 1024 is what
    [effective_output_dim] gives for a qwen3 configuration whose
    [output_dim] is unset. *)
Theorem docs_state_native_default main_src readme cfg :
  str_in PatchMain.old_mrl_help main_src = true ->
  str_in PatchReadme.old_config_table readme = true ->
  str_in PatchReadme.old_models_table readme = true ->
  model cfg = qwen3 ->
  output_dim cfg = None ->
  str_in PatchMain.help_default (PatchMain.patch main_src) = true /\
  str_in PatchReadme.mrl_row (PatchReadme.patch readme) = true /\
  str_in PatchReadme.mrl_section_default (PatchReadme.patch readme) = true /\
  effective_output_dim cfg = native_dim (model cfg) /\
  decimal (effective_output_dim cfg) = PatchReadme.documented_native_dim /\
  str_in (py "(" ++ decimal (effective_output_dim cfg) ++ py " for qwen3)")
         PatchMain.help_default = true.
Proof.
  intros Hm Hc Ht Hq Ho. repeat split.
  - now apply main_help_documented.
  - now apply readme_row_documented.
  - now apply readme_section_documented.
  - unfold effective_output_dim. now rewrite Ho.
  - unfold effective_output_dim. rewrite Ho, Hq. by_evaluation.
  - unfold effective_output_dim. rewrite Ho, Hq. by_evaluation.
Qed.

Lemma docs_state_native_default_witness :
  str_in PatchMain.old_mrl_help PatchMain.main_example = true /\
  str_in PatchReadme.old_config_table PatchReadme.readme_example = true /\
  str_in PatchReadme.old_models_table PatchReadme.readme_example = true /\
  str_in PatchMain.help_default (PatchMain.patch PatchMain.main_example) = true /\
  str_in PatchReadme.mrl_row (PatchReadme.patch PatchReadme.readme_example) = true /\
  str_in PatchReadme.mrl_section_default
         (PatchReadme.patch PatchReadme.readme_example) = true /\
  effective_output_dim {| model := qwen3; output_dim := None |} = 1024.
Proof.
  split; [by_evaluation|]. split; [by_evaluation|]. split; [by_evaluation|].
  destruct (docs_state_native_default PatchMain.main_example PatchReadme.readme_example
              {| model := qwen3; output_dim := None |})
    as (H1 & H2 & H3 & H4 & _); try by_evaluation; try reflexivity.
  repeat split; assumption.
Defined.

(** ** MRL prefix stability *)

Section MRLTheory.

Variable F : Type.
Variable fzero : F.
Variables fadd fmul fdiv : F -> F -> F.
Variable fsqrt : F -> F.

Lemma mrl_prefix_prefix d1 d2 (pooled : list F) :
  d2 <= d1 -> mrl_prefix F d2 (mrl_prefix F d1 pooled) = mrl_prefix F d2 pooled.
Proof.
  intros L. unfold mrl_prefix. rewrite firstn_firstn. now rewrite Nat.min_l.
Qed.

Lemma l2_normalize_length (v : list F) :
  length (l2_normalize F fzero fadd fmul fdiv fsqrt v) = length v.
Proof. unfold l2_normalize. apply length_map. Qed.

End MRLTheory.

(** C7: for a model that supports MRL and dimensions
    [d2 < d1 <= native_dim], the first [d2] components of the [d1]-length
    result before renormalization, renormalized, are the embedding computed
    directly with [effective_dim = d2], which has [d2] components.  The two
    sides perform the same operations on the same numbers, so they agree
    exactly in any scalar arithmetic, floating point included, and so
    within every tolerance. *)
Theorem mrl_prefix_stable (F : Type) (fzero : F) (fadd fmul fdiv : F -> F -> F)
    (fsqrt : F -> F) (m : ModelDescriptor) (pooled : list F) (d1 d2 : nat) :
  supports_mrl m = true ->
  length pooled = native_dim m ->
  d2 < d1 -> d1 <= native_dim m ->
  l2_normalize F fzero fadd fmul fdiv fsqrt
    (firstn d2 (mrl_prefix F d1 pooled))
  = mrl_truncate F fzero fadd fmul fdiv fsqrt m d2 pooled /\
  length (mrl_truncate F fzero fadd fmul fdiv fsqrt m d2 pooled) = d2.
Proof.
  intros Hs Hl L12 L1. unfold mrl_truncate.
  assert (Hlt : (d2 <? native_dim m) = true) by (apply Nat.ltb_lt; lia).
  rewrite Hlt, Hs. simpl. split.
  - change (firstn d2 (mrl_prefix F d1 pooled))
      with (mrl_prefix F d2 (mrl_prefix F d1 pooled)).
    rewrite mrl_prefix_prefix by lia. reflexivity.
  - rewrite l2_normalize_length. unfold mrl_prefix.
    rewrite length_firstn. lia.
Qed.

Lemma mrl_prefix_stable_witness :
  supports_mrl qwen3 = true /\
  length example_pooled = native_dim qwen3 /\
  256 < 512 /\ 512 <= native_dim qwen3 /\
  float_l2_normalize (firstn 256 (mrl_prefix PrimFloat.float 512 example_pooled))
  = float_mrl_truncate qwen3 256 example_pooled /\
  length (float_mrl_truncate qwen3 256 example_pooled) = 256.
Proof.
  assert (H1 : supports_mrl qwen3 = true) by reflexivity.
  assert (H2 : length example_pooled = native_dim qwen3) by (vm_compute; reflexivity).
  assert (H3 : 256 < 512) by lia.
  assert (H4 : 512 <= native_dim qwen3) by (simpl; lia).
  repeat (split; [assumption|]).
  exact (mrl_prefix_stable PrimFloat.float PrimFloat.zero
           PrimFloat.add PrimFloat.mul PrimFloat.div PrimFloat.sqrt
           qwen3 example_pooled 512 256 H1 H2 H3 H4).
Defined.

(** ** Frame of the five scripts *)

Lemma old_impl_nonempty : PatchDefault.old_impl <> [].
Proof. literal_nonempty. Qed.

Lemma old_derive_nonempty : PatchDefault.old_derive <> [].
Proof. literal_nonempty. Qed.

Lemma old_variant_nonempty : PatchDefault.old_variant <> [].
Proof. literal_nonempty. Qed.

(** No script has an empty anchor. *)
Lemma steps_nonempty n old new : In (old, new) (steps n) -> old <> [].
Proof.
  destruct n; unfold steps; cbn [In]; intros H;
    repeat (destruct H as [H | H]; [injection H as <- _; literal_nonempty|]);
    destruct H.
Qed.

(** Each script is the composition of its replacements. *)
Lemma patch_of_steps n content :
  patch_of n content =
  fold_left (fun c st => str_replace c (fst st) (snd st)) (steps n) content.
Proof. destruct n; reflexivity. Qed.

Lemma Chain_fold st :
  (forall old new, In (old, new) st -> old <> []) ->
  forall c, Chain st c (fold_left (fun c st => str_replace c (fst st) (snd st)) st c).
Proof.
  induction st as [|[old new] st IH]; intros N c; simpl.
  - constructor.
  - econstructor.
    + apply replace_Rewrite. apply (N old new). now left.
    + apply IH. intros o n' H. apply (N o n'). now right.
Qed.

(** The chain of frames determines the output. *)
Lemma Chain_functional st :
  (forall old new, In (old, new) st -> old <> []) ->
  forall c out, Chain st c out ->
  out = fold_left (fun c st => str_replace c (fst st) (snd st)) st c.
Proof.
  intros N c out H. induction H as [c | old new rest c c1 c2 R _ IH]; simpl.
  - reflexivity.
  - apply Rewrite_replace in R; [|apply (N old new); now left].
    unfold str_replace. rewrite <- R. apply IH.
    intros o n' H'. apply (N o n'). now right.
Qed.

Lemma fold_absent st :
  (forall old new, In (old, new) st -> old <> []) ->
  forall c, (forall old new, In (old, new) st -> str_in old c = false) ->
  fold_left (fun c st => str_replace c (fst st) (snd st)) st c = c.
Proof.
  induction st as [|[old new] st IH]; intros N c H; simpl; [reflexivity|].
  unfold str_replace at 2. simpl.
  rewrite replace_absent; [| apply (N old new); now left | apply (H old new); now left].
  apply IH; intros o n' H'; [apply (N o n') | apply (H o n')]; now right.
Qed.

Lemma script_of_run n : script_of n = run_script (file_of n) (patch_of n).
Proof. destruct n; reflexivity. Qed.

Lemma universal_newlines_id raw :
  existsb (N.eqb cr) raw = false -> universal_newlines raw = raw.
Proof.
  induction raw as [|c raw IH]; intros H; [reflexivity|].
  cbn [existsb] in H. apply orb_false_iff in H as [Hc Hr].
  rewrite N.eqb_sym in Hc. cbn [universal_newlines]. rewrite Hc.
  now rewrite IH.
Qed.

(** C8, as the code has it: each script rewrites the text it read by a
    chain of replacements, each of which changes the text only at the
    occurrences of its anchor met by the scan and puts the replacement
    there; the chain determines the output; a replacement whose anchor is
    absent changes nothing; the script writes its own file and no other;
    and a script none of whose anchors occurs writes back the text it
    read, which leaves the file as it was when the file holds no carriage
    return. *)
Theorem scripts_frame n content fs :
  read_text fs (file_of n) = Some content ->
  Chain (steps n) content (patch_of n content) /\
  (forall out, Chain (steps n) content out -> out = patch_of n content) /\
  (forall old new c, In (old, new) (steps n) ->
                     str_in old c = false -> str_replace c old new = c) /\
  exists fs',
    script_of n fs = Some fs' /\
    fs' (file_of n) = Some (patch_of n content) /\
    (forall q, q <> file_of n -> fs' q = fs q) /\
    ((forall old new, In (old, new) (steps n) -> str_in old content = false) ->
     fs' (file_of n) = Some content /\
     forall raw, fs (file_of n) = Some raw ->
                 existsb (N.eqb cr) raw = false -> forall q, fs' q = fs q).
Proof.
  intros Hfs. split; [|split; [|split]].
  - rewrite patch_of_steps. apply Chain_fold, steps_nonempty.
  - intros out H. rewrite patch_of_steps.
    now apply Chain_functional; [apply steps_nonempty|].
  - intros old new c Hin H. apply replace_absent; [|exact H].
    exact (steps_nonempty n old new Hin).
  - assert (W : forall q, q <> file_of n ->
                fs_write fs (file_of n) (patch_of n content) q = fs q).
    { intros q Hq. unfold fs_write.
      destruct (String.eqb q (file_of n)) eqn:E; [|reflexivity].
      apply String.eqb_eq in E. now destruct Hq. }
    assert (V : fs_write fs (file_of n) (patch_of n content) (file_of n)
                = Some (patch_of n content)).
    { unfold fs_write. now rewrite String.eqb_refl. }
    exists (fs_write fs (file_of n) (patch_of n content)).
    split; [|split; [exact V | split; [exact W|]]].
    + rewrite script_of_run. unfold run_script. now rewrite Hfs.
    + intros H.
      assert (P : patch_of n content = content).
      { rewrite patch_of_steps. now apply fold_absent; [apply steps_nonempty|]. }
      split; [now rewrite V, P|].
      intros raw Hraw Hcr q.
      destruct (String.eqb q (file_of n)) eqn:E.
      * apply String.eqb_eq in E. subst q. rewrite V, P, Hraw.
        unfold read_text in Hfs. rewrite Hraw in Hfs. injection Hfs as <-.
        now rewrite universal_newlines_id.
      * apply W. intros ->. now rewrite String.eqb_refl in E.
Qed.

Lemma scripts_frame_witness :
  read_text (single_file (file_of Service) PatchService.service_example)
            (file_of Service)
    = Some PatchService.service_example /\
  Chain (steps Service) PatchService.service_example
        (patch_of Service PatchService.service_example) /\
  exists fs',
    script_of Service (single_file (file_of Service) PatchService.service_example)
      = Some fs' /\
    fs' (file_of Service) = Some (patch_of Service PatchService.service_example) /\
    forall q, q <> file_of Service ->
              fs' q = single_file (file_of Service) PatchService.service_example q.
Proof.
  assert (H : read_text (single_file (file_of Service) PatchService.service_example)
                (file_of Service) = Some PatchService.service_example)
    by (vm_compute; reflexivity).
  split; [exact H|].
  destruct (scripts_frame Service PatchService.service_example
              (single_file (file_of Service) PatchService.service_example) H)
    as (C & _ & _ & fs' & R & V & W & _).
  split; [exact C|]. exists fs'. split; [exact R|]. split; [exact V | exact W].
Defined.

(** A file with a carriage return and without anchors is not written back
    as it was: the text read holds a bare newline where the file held
    [\r\n], no anchor occurs in it, and that text is what the script
    writes. *)
Lemma crlf_file_not_kept_counterexample :
  (forall old new, In (old, new) (steps Main) -> str_in old crlf_example = false) /\
  read_text (single_file (file_of Main) crlf_example) (file_of Main)
    = Some crlf_example_read /\
  (forall old new, In (old, new) (steps Main) ->
                   str_in old crlf_example_read = false) /\
  match script_of Main (single_file (file_of Main) crlf_example) with
  | Some fs' => fs' (file_of Main)
  | None => None
  end = Some crlf_example_read /\
  crlf_example_read <> crlf_example.
Proof.
  split; [|split; [|split; [|split]]].
  - unfold steps; cbn [In]; intros old new H.
    repeat (destruct H as [H | H]; [injection H as <- _; vm_compute; reflexivity|]).
    destruct H.
  - vm_compute; reflexivity.
  - unfold steps; cbn [In]; intros old new H.
    repeat (destruct H as [H | H]; [injection H as <- _; vm_compute; reflexivity|]).
    destruct H.
  - vm_compute; reflexivity.
  - intro H. apply (f_equal (@length N)) in H. vm_compute in H. discriminate.
Qed.

(** A main source without anchors is written back unchanged. *)
Lemma main_without_anchors_unchanged :
  PatchMain.patch (py "fn main() { println!(); }") = py "fn main() { println!(); }".
Proof. by_evaluation. Qed.

(** ** patch_default.py *)

Lemma old_impl_unbordered :
  no_overlapL PatchDefault.old_impl PatchDefault.old_impl = true.
Proof. by_evaluation. Qed.

Lemma derive_no_overlap :
  no_overlapL PatchDefault.old_derive PatchDefault.new_derive = true.
Proof. by_evaluation. Qed.

Lemma derive_never_inside :
  inside_at [] PatchDefault.old_derive PatchDefault.new_derive = true.
Proof. by_evaluation. Qed.

Lemma old_variant_survives_derive :
  transfer_ok PatchDefault.old_variant
              PatchDefault.old_derive PatchDefault.new_derive = true.
Proof. by_evaluation. Qed.

Lemma new_derive_survives_variant :
  transfer_ok PatchDefault.new_derive
              PatchDefault.old_variant PatchDefault.new_variant = true.
Proof. by_evaluation. Qed.

Lemma old_impl_not_built_by_derive :
  transfer_ok PatchDefault.old_impl
              PatchDefault.new_derive PatchDefault.old_derive = true.
Proof. by_evaluation. Qed.

Lemma old_impl_not_built_by_variant :
  transfer_ok PatchDefault.old_impl
              PatchDefault.new_variant PatchDefault.old_variant = true.
Proof. by_evaluation. Qed.

Lemma old_derive_not_built_by_variant :
  transfer_ok PatchDefault.old_derive
              PatchDefault.new_variant PatchDefault.old_variant = true.
Proof. by_evaluation. Qed.

(** The first replacement takes the one manual impl out. *)
Lemma default_removes_impl a d :
  str_in PatchDefault.old_impl (a ++ d) = false ->
  str_replace (a ++ PatchDefault.old_impl ++ d) PatchDefault.old_impl [] = a ++ d.
Proof.
  intros H. unfold str_replace.
  now rewrite (replace_single _ [] a d old_impl_nonempty old_impl_unbordered H).
Qed.

(** The three replacements are independent: on a source whose derive line
    is written differently the manual impl is taken out, [#[default]] is
    put on the variant, and no [Default] is left anywhere in the text. *)
Lemma default_lost_counterexample :
  PatchDefault.has_manual_default PatchDefault.config_hash_example = true /\
  PatchDefault.has_manual_default
    (PatchDefault.patch PatchDefault.config_hash_example) = false /\
  PatchDefault.has_derived_default
    (PatchDefault.patch PatchDefault.config_hash_example) = false /\
  str_in (py "Default") (PatchDefault.patch PatchDefault.config_hash_example) = false.
Proof. repeat split; by_evaluation. Qed.

(** The derive line on another enum is not enough: here the anchors of
    all three replacements occur and the manual impl occurs once; the
    patched text holds a derive line with [Default] and [#[default]] on
    [Qwen3], yet the derive line with [Default] stands on [Pooling], and
    the one on [ModelType] is the one it was. *)
Lemma default_derive_on_other_enum :
  PatchDefault.has_manual_default PatchDefault.config_other_enum_example = true /\
  str_in PatchDefault.old_derive PatchDefault.config_other_enum_example = true /\
  str_in PatchDefault.old_variant PatchDefault.config_other_enum_example = true /\
  PatchDefault.patch PatchDefault.config_other_enum_example
    = PatchDefault.config_other_enum_patched /\
  PatchDefault.has_manual_default PatchDefault.config_other_enum_patched = false /\
  PatchDefault.has_derived_default PatchDefault.config_other_enum_patched = true /\
  str_in (py "Eq, Hash)]" ++ nl ++ py "pub " ++ PatchDefault.enum_head)
         PatchDefault.config_other_enum_patched = true /\
  str_in (PatchDefault.new_derive ++ nl ++ py "pub " ++ PatchDefault.enum_head)
         PatchDefault.config_other_enum_patched = false.
Proof. repeat split; by_evaluation. Qed.

(** In that patched text [ModelType] itself has no derived default: the
    only derive line with [Default] is the first line, and the body of
    [Pooling] stands between it and the only [enum ModelType {]. *)
Lemma default_not_derived_for_model_type :
  ~ PatchDefault.derives_default_for_model_type
      PatchDefault.config_other_enum_patched.
Proof.
  intros (a & m & b & c & E & _ & Im & _).
  pose proof (positions_from_spec 0 PatchDefault.new_derive a
                (m ++ PatchDefault.enum_head ++ b ++ PatchDefault.new_variant ++ c))
    as Pa.
  rewrite <- E in Pa.
  assert (Oa : positions_from 0 PatchDefault.new_derive
                 PatchDefault.config_other_enum_patched = [0])
    by by_evaluation.
  rewrite Oa in Pa. destruct Pa as [Pa | []].
  destruct a; [|discriminate Pa]. clear Pa Oa.
  assert (S : PatchDefault.config_other_enum_patched
              = PatchDefault.new_derive
                  ++ skipn (length PatchDefault.new_derive)
                           PatchDefault.config_other_enum_patched)
    by by_evaluation.
  rewrite S, app_nil_l in E. apply app_inv_head in E.
  pose proof (positions_from_spec 0 PatchDefault.enum_head m
                (b ++ PatchDefault.new_variant ++ c)) as Pm.
  rewrite <- E in Pm.
  assert (Om : positions_from 0 PatchDefault.enum_head
                 (skipn (length PatchDefault.new_derive)
                        PatchDefault.config_other_enum_patched) = [88])
    by by_evaluation.
  rewrite Om in Pm. destruct Pm as [Pm | []].
  assert (M : m = firstn 88 (skipn (length PatchDefault.new_derive)
                                    PatchDefault.config_other_enum_patched)).
  { simpl in Pm. rewrite E, Pm, firstn_app, Nat.sub_diag, firstn_all, firstn_O.
    now rewrite app_nil_r. }
  rewrite M in Im. vm_compute in Im. discriminate Im.
Qed.

Lemma old_derive_unbordered :
  no_overlapL PatchDefault.old_derive PatchDefault.old_derive = true.
Proof. by_evaluation. Qed.

Lemma old_variant_unbordered :
  no_overlapL PatchDefault.old_variant PatchDefault.old_variant = true.
Proof. by_evaluation. Qed.

Lemma derive_apart_head :
  apart PatchDefault.old_derive PatchDefault.enum_head = true.
Proof. by_evaluation. Qed.

Lemma derive_apart_variant :
  apart PatchDefault.old_derive PatchDefault.old_variant = true.
Proof. by_evaluation. Qed.

Lemma variant_apart_new_derive :
  apart PatchDefault.old_variant PatchDefault.new_derive = true.
Proof. by_evaluation. Qed.

Lemma variant_apart_head :
  apart PatchDefault.old_variant PatchDefault.enum_head = true.
Proof. by_evaluation. Qed.

Lemma new_derive_item_free : PatchDefault.item_free PatchDefault.new_derive = true.
Proof. by_evaluation. Qed.

Lemma new_variant_item_free : PatchDefault.item_free PatchDefault.new_variant = true.
Proof. by_evaluation. Qed.

Lemma new_derive_body_open : PatchDefault.body_open PatchDefault.new_derive = true.
Proof. by_evaluation. Qed.

Lemma new_variant_body_open : PatchDefault.body_open PatchDefault.new_variant = true.
Proof. by_evaluation. Qed.

(** The script is the removal followed by the two other replacements. *)
Lemma default_patch_steps content :
  PatchDefault.patch content
  = PatchDefault.derive_and_variant
      (str_replace content PatchDefault.old_impl []).
Proof. reflexivity. Qed.

(** The two replacements rewrite the derive line on the enum and the
    variant in its body where they stand, and the texts around them each
    on its own. *)
Lemma derive_and_variant_shape a m b c :
  PatchDefault.derive_and_variant
    (a ++ PatchDefault.old_derive ++ m ++ PatchDefault.enum_head
       ++ b ++ PatchDefault.old_variant ++ c)
  = PatchDefault.derive_and_variant a ++ PatchDefault.new_derive
      ++ PatchDefault.derive_and_variant m ++ PatchDefault.enum_head
      ++ PatchDefault.derive_and_variant b ++ PatchDefault.new_variant
      ++ PatchDefault.derive_and_variant c.
Proof.
  unfold PatchDefault.derive_and_variant, str_replace.
  rewrite (replace_app_anchor PatchDefault.old_derive PatchDefault.new_derive a _
             old_derive_nonempty old_derive_unbordered).
  rewrite (replace_app_sep PatchDefault.old_derive PatchDefault.new_derive
             PatchDefault.enum_head m _ old_derive_nonempty derive_apart_head).
  rewrite (replace_app_sep PatchDefault.old_derive PatchDefault.new_derive
             PatchDefault.old_variant b c old_derive_nonempty derive_apart_variant).
  rewrite (replace_app_sep PatchDefault.old_variant PatchDefault.new_variant
             PatchDefault.new_derive _ _ old_variant_nonempty
             variant_apart_new_derive).
  rewrite (replace_app_sep PatchDefault.old_variant PatchDefault.new_variant
             PatchDefault.enum_head _ _ old_variant_nonempty variant_apart_head).
  now rewrite (replace_app_anchor PatchDefault.old_variant PatchDefault.new_variant
                 _ _ old_variant_nonempty old_variant_unbordered).
Qed.

Lemma derive_and_variant_holds_none cs s :
  PatchDefault.holds_none_of cs PatchDefault.new_derive = true ->
  PatchDefault.holds_none_of cs PatchDefault.new_variant = true ->
  PatchDefault.holds_none_of cs s = true ->
  PatchDefault.holds_none_of cs (PatchDefault.derive_and_variant s) = true.
Proof.
  intros Hd Hv H. unfold PatchDefault.derive_and_variant, str_replace.
  apply forallb_replace; [exact old_variant_nonempty | exact Hv |].
  apply forallb_replace; [exact old_derive_nonempty | exact Hd | exact H].
Qed.

Lemma derive_and_variant_item_free m :
  PatchDefault.item_free m = true ->
  PatchDefault.item_free (PatchDefault.derive_and_variant m) = true.
Proof.
  apply derive_and_variant_holds_none;
    [exact new_derive_item_free | exact new_variant_item_free].
Qed.

Lemma derive_and_variant_body_open b :
  PatchDefault.body_open b = true ->
  PatchDefault.body_open (PatchDefault.derive_and_variant b) = true.
Proof.
  apply derive_and_variant_holds_none;
    [exact new_derive_body_open | exact new_variant_body_open].
Qed.

Lemma derive_apart_newline : apart PatchDefault.old_derive nl = true.
Proof. by_evaluation. Qed.

Lemma variant_apart_newline : apart PatchDefault.old_variant nl = true.
Proof. by_evaluation. Qed.

(** Neither anchor holds a newline: a text that ends a line still does
    after the two replacements. *)
Lemma derive_and_variant_line_start a :
  PatchDefault.line_start a = true ->
  PatchDefault.line_start (PatchDefault.derive_and_variant a) = true.
Proof.
  unfold PatchDefault.line_start. intros H.
  destruct (rev a) as [|c r] eqn:E.
  - apply (f_equal (@rev N)) in E. rewrite rev_involutive in E. now subst a.
  - apply N.eqb_eq in H. subst c.
    apply (f_equal (@rev N)) in E. rewrite rev_involutive in E. subst a.
    change (rev (lf :: r)) with (rev r ++ nl ++ []).
    unfold PatchDefault.derive_and_variant, str_replace.
    rewrite (replace_app_sep PatchDefault.old_derive PatchDefault.new_derive
               nl _ [] old_derive_nonempty derive_apart_newline).
    rewrite (replace_app_sep PatchDefault.old_variant PatchDefault.new_variant
               nl _ _ old_variant_nonempty variant_apart_newline).
    rewrite app_assoc, rev_app_distr.
    set (t := replace PatchDefault.old_variant PatchDefault.new_variant
                (replace PatchDefault.old_derive PatchDefault.new_derive [])).
    assert (T : t = []) by reflexivity.
    rewrite T. cbn [rev app]. rewrite rev_app_distr. reflexivity.
Qed.

(** C9, as the code has it: take a config source that holds the manual
    [impl Default] and holds none once the first replacement has removed
    the occurrences met by the scan, and in which, after that removal, the
    derive line of the anchor begins a line and stands in front of
    [enum ModelType {] with no other item and no comment between them, and
    the [Qwen3] variant line begins a line in the body of that enum.
    Then the patched text holds no manual impl; it is
    the text after the removal with the derive line on [ModelType] and the
    variant in its body rewritten where they stand; so [Default] is in the
    derive list of [ModelType] itself and [#[default]] is on [Qwen3] in
    its body; and the derive line without [Default] is gone.  Before the
    patch the default is given by the manual impl returning [Self::Qwen3],
    after it by the derived one on [Qwen3]. *)
Theorem default_patch_preserves_default content a m b c :
  PatchDefault.has_manual_default content = true ->
  str_in PatchDefault.old_impl
         (str_replace content PatchDefault.old_impl []) = false ->
  str_replace content PatchDefault.old_impl []
    = a ++ PatchDefault.old_derive ++ m ++ PatchDefault.enum_head
        ++ b ++ PatchDefault.old_variant ++ c ->
  PatchDefault.line_start a = true ->
  PatchDefault.item_free m = true ->
  PatchDefault.line_start b = true ->
  PatchDefault.body_open b = true ->
  PatchDefault.has_manual_default (PatchDefault.patch content) = false /\
  PatchDefault.patch content
    = PatchDefault.derive_and_variant a ++ PatchDefault.new_derive
        ++ PatchDefault.derive_and_variant m ++ PatchDefault.enum_head
        ++ PatchDefault.derive_and_variant b ++ PatchDefault.new_variant
        ++ PatchDefault.derive_and_variant c /\
  PatchDefault.derives_default_for_model_type (PatchDefault.patch content) /\
  PatchDefault.has_derived_default (PatchDefault.patch content) = true /\
  str_in PatchDefault.old_derive (PatchDefault.patch content) = false.
Proof.
  intros _ Hi E La Im Lb Bo.
  assert (P : PatchDefault.patch content
    = PatchDefault.derive_and_variant a ++ PatchDefault.new_derive
        ++ PatchDefault.derive_and_variant m ++ PatchDefault.enum_head
        ++ PatchDefault.derive_and_variant b ++ PatchDefault.new_variant
        ++ PatchDefault.derive_and_variant c)
    by (now rewrite default_patch_steps, E, derive_and_variant_shape).
  split; [|split; [exact P | split; [|split]]].
  - rewrite default_patch_steps.
    unfold PatchDefault.has_manual_default, PatchDefault.derive_and_variant,
      str_in, str_replace.
    apply replace_adds_none;
      [exact old_variant_nonempty | exact old_impl_not_built_by_variant |].
    apply replace_adds_none;
      [exact old_derive_nonempty | exact old_impl_not_built_by_derive | exact Hi].
  - exists (PatchDefault.derive_and_variant a), (PatchDefault.derive_and_variant m),
      (PatchDefault.derive_and_variant b), (PatchDefault.derive_and_variant c).
    split; [exact P|]. split; [|split; [|split]].
    + now apply derive_and_variant_line_start.
    + now apply derive_and_variant_item_free.
    + now apply derive_and_variant_line_start.
    + now apply derive_and_variant_body_open.
  - rewrite P. unfold PatchDefault.has_derived_default, str_in.
    apply andb_true_iff. split; [apply occurs_intro|].
    apply occurs_spec.
    exists (PatchDefault.derive_and_variant a ++ PatchDefault.new_derive
              ++ PatchDefault.derive_and_variant m ++ PatchDefault.enum_head
              ++ PatchDefault.derive_and_variant b),
      (PatchDefault.derive_and_variant c).
    now rewrite <- !app_assoc.
  - rewrite default_patch_steps.
    unfold PatchDefault.derive_and_variant, str_in, str_replace.
    apply replace_adds_none;
      [exact old_variant_nonempty | exact old_derive_not_built_by_variant |].
    exact (replace_removes _ _ old_derive_nonempty
             derive_no_overlap derive_never_inside _).
Qed.

Lemma default_patch_preserves_default_witness :
  PatchDefault.has_manual_default
    (PatchDefault.config_example_head ++ PatchDefault.old_impl
       ++ PatchDefault.config_example_tail) = true /\
  str_in PatchDefault.old_impl
    (str_replace
       (PatchDefault.config_example_head ++ PatchDefault.old_impl
          ++ PatchDefault.config_example_tail)
       PatchDefault.old_impl []) = false /\
  str_replace
    (PatchDefault.config_example_head ++ PatchDefault.old_impl
       ++ PatchDefault.config_example_tail)
    PatchDefault.old_impl []
    = [] ++ PatchDefault.old_derive ++ PatchDefault.config_example_vis
        ++ PatchDefault.enum_head ++ PatchDefault.config_example_body
        ++ PatchDefault.old_variant ++ PatchDefault.config_example_rest /\
  PatchDefault.line_start [] = true /\
  PatchDefault.item_free PatchDefault.config_example_vis = true /\
  PatchDefault.line_start PatchDefault.config_example_body = true /\
  PatchDefault.body_open PatchDefault.config_example_body = true /\
  PatchDefault.has_manual_default
    (PatchDefault.patch
       (PatchDefault.config_example_head ++ PatchDefault.old_impl
          ++ PatchDefault.config_example_tail)) = false /\
  PatchDefault.derives_default_for_model_type
    (PatchDefault.patch
       (PatchDefault.config_example_head ++ PatchDefault.old_impl
          ++ PatchDefault.config_example_tail)) /\
  PatchDefault.has_derived_default
    (PatchDefault.patch
       (PatchDefault.config_example_head ++ PatchDefault.old_impl
          ++ PatchDefault.config_example_tail)) = true.
Proof.
  assert (H1 : PatchDefault.has_manual_default
                 (PatchDefault.config_example_head ++ PatchDefault.old_impl
                    ++ PatchDefault.config_example_tail) = true)
    by by_evaluation.
  assert (H2 : str_in PatchDefault.old_impl
                 (str_replace
                    (PatchDefault.config_example_head ++ PatchDefault.old_impl
                       ++ PatchDefault.config_example_tail)
                    PatchDefault.old_impl []) = false)
    by by_evaluation.
  assert (H3 : str_replace
                 (PatchDefault.config_example_head ++ PatchDefault.old_impl
                    ++ PatchDefault.config_example_tail)
                 PatchDefault.old_impl []
               = [] ++ PatchDefault.old_derive ++ PatchDefault.config_example_vis
                   ++ PatchDefault.enum_head ++ PatchDefault.config_example_body
                   ++ PatchDefault.old_variant ++ PatchDefault.config_example_rest)
    by by_evaluation.
  assert (H4 : PatchDefault.item_free PatchDefault.config_example_vis = true)
    by by_evaluation.
  assert (H5 : PatchDefault.body_open PatchDefault.config_example_body = true)
    by by_evaluation.
  assert (L1 : PatchDefault.line_start [] = true) by reflexivity.
  assert (L2 : PatchDefault.line_start PatchDefault.config_example_body = true)
    by by_evaluation.
  destruct (default_patch_preserves_default _ _ _ _ _ H1 H2 H3 L1 H4 L2 H5)
    as (C1 & _ & C3 & C4 & _).
  split; [exact H1|]. split; [exact H2|]. split; [exact H3|].
  split; [exact L1|]. split; [exact H4|]. split; [exact L2|]. split; [exact H5|].
  split; [exact C1|]. split; [exact C3 | exact C4].
Defined.

(** ** Running a script twice *)

(** A second run of patch_engine_empty.py inserts a second guard. *)
Lemma engine_patch_not_idempotent_counterexample :
  PatchEngineEmpty.patch (PatchEngineEmpty.patch PatchEngineEmpty.engine_example)
  <> PatchEngineEmpty.patch PatchEngineEmpty.engine_example.
Proof.
  intro H. apply (f_equal (@length N)) in H. vm_compute in H. discriminate.
Qed.

(** So do second runs of patch_main.py (the event) and of patch_default.py
    (the attribute). *)
Lemma main_patch_not_idempotent :
  PatchMain.patch (PatchMain.patch PatchMain.main_example)
  <> PatchMain.patch PatchMain.main_example.
Proof.
  intro H. apply (f_equal (@length N)) in H. vm_compute in H. discriminate.
Qed.

Lemma default_patch_not_idempotent :
  PatchDefault.patch
    (PatchDefault.patch
       (PatchDefault.config_example_head ++ PatchDefault.old_impl
          ++ PatchDefault.config_example_tail))
  <> PatchDefault.patch
       (PatchDefault.config_example_head ++ PatchDefault.old_impl
          ++ PatchDefault.config_example_tail).
Proof.
  intro H. apply (f_equal (@length N)) in H. vm_compute in H. discriminate.
Qed.

(** patch_readme.py is idempotent on the example README, but not on every
    text: both ends of the configuration table are a [|], so a table whose
    last character is also the first of a second one is rewritten in the
    first run and the second table in the second run. *)
Lemma readme_patch_idempotent_on_example :
  PatchReadme.patch (PatchReadme.patch PatchReadme.readme_example)
  = PatchReadme.patch PatchReadme.readme_example.
Proof. by_evaluation. Qed.

Lemma readme_patch_not_idempotent :
  PatchReadme.patch
    (PatchReadme.patch
       (removelast PatchReadme.old_config_table ++ PatchReadme.old_config_table))
  <> PatchReadme.patch
       (removelast PatchReadme.old_config_table ++ PatchReadme.old_config_table).
Proof.
  intro H. apply (f_equal (@length N)) in H. vm_compute in H. discriminate.
Qed.

Lemma service_patch_idempotent content :
  PatchService.patch (PatchService.patch content) = PatchService.patch content.
Proof.
  apply replace_absent; [exact old_bindings_nonempty|].
  apply service_anchor_removed.
Qed.

Lemma engine_patch_idempotent_iff content :
  PatchEngineEmpty.patch (PatchEngineEmpty.patch content)
    = PatchEngineEmpty.patch content
  <-> str_in PatchEngineEmpty.old_line content = false.
Proof.
  split.
  - intros H. destruct (str_in PatchEngineEmpty.old_line content) eqn:O; [|reflexivity].
    exfalso.
    assert (O' : str_in PatchEngineEmpty.old_line (PatchEngineEmpty.patch content) = true).
    { apply occurs_trans with (q := PatchEngineEmpty.new_lines); [by_evaluation|].
      apply replace_present; [exact old_line_nonempty | exact O]. }
    assert (L : length PatchEngineEmpty.old_line < length PatchEngineEmpty.new_lines)
      by (vm_compute; lia).
    pose proof (replace_grows _ _ _ old_line_nonempty L O') as G.
    change (replace PatchEngineEmpty.old_line PatchEngineEmpty.new_lines
              (PatchEngineEmpty.patch content))
      with (PatchEngineEmpty.patch (PatchEngineEmpty.patch content)) in G.
    rewrite H in G. lia.
  - intros H.
    assert (E : PatchEngineEmpty.patch content = content)
      by (apply replace_absent; [exact old_line_nonempty | exact H]).
    now rewrite !E.
Qed.

Lemma help_no_overlap :
  no_overlapL PatchMain.old_mrl_help PatchMain.new_mrl_help = true.
Proof. by_evaluation. Qed.

Lemma help_never_inside :
  inside_at [] PatchMain.old_mrl_help PatchMain.new_mrl_help = true.
Proof. by_evaluation. Qed.

Lemma old_log_not_built_by_help :
  transfer_ok PatchMain.old_log PatchMain.new_mrl_help PatchMain.old_mrl_help = true.
Proof. by_evaluation. Qed.

Lemma old_help_not_built_by_log :
  transfer_ok PatchMain.old_mrl_help PatchMain.new_log PatchMain.old_log = true.
Proof. by_evaluation. Qed.

(** The patched main text holds no [MRL_DIM] attribute without help, so a
    second run applies the second replacement only. *)
Lemma main_second_run content :
  PatchMain.patch (PatchMain.patch content)
  = str_replace (PatchMain.patch content) PatchMain.old_log PatchMain.new_log.
Proof.
  unfold PatchMain.patch at 1. f_equal.
  apply replace_absent; [exact old_mrl_help_nonempty|].
  apply replace_adds_none;
    [exact old_log_nonempty | exact old_help_not_built_by_log |].
  exact (replace_removes _ _ old_mrl_help_nonempty
           help_no_overlap help_never_inside content).
Qed.

Lemma main_patch_idempotent_iff content :
  PatchMain.patch (PatchMain.patch content) = PatchMain.patch content
  <-> str_in PatchMain.old_log content = false.
Proof.
  rewrite main_second_run. split.
  - intros H. destruct (str_in PatchMain.old_log content) eqn:O; [|reflexivity].
    exfalso.
    assert (O' : str_in PatchMain.old_log (PatchMain.patch content) = true).
    { apply occurs_trans with (q := PatchMain.new_log); [by_evaluation|].
      apply replace_present; [exact old_log_nonempty|].
      apply replace_keeps;
        [exact old_mrl_help_nonempty | exact old_log_survives_help | exact O]. }
    assert (L : length PatchMain.old_log < length PatchMain.new_log)
      by (vm_compute; lia).
    pose proof (replace_grows _ _ _ old_log_nonempty L O') as G.
    unfold str_replace in H. rewrite H in G. lia.
  - intros H. apply replace_absent; [exact old_log_nonempty|].
    unfold PatchMain.patch.
    assert (H1 : str_in PatchMain.old_log
                   (str_replace content PatchMain.old_mrl_help PatchMain.new_mrl_help)
                 = false).
    { apply replace_adds_none;
        [exact old_mrl_help_nonempty | exact old_log_not_built_by_help | exact H]. }
    unfold str_replace at 1. rewrite replace_absent; [exact H1 | exact old_log_nonempty | exact H1].
Qed.

(** C10, as the code has it: patch_service.py is idempotent on every text;
    patch_engine_empty.py and patch_main.py are idempotent exactly on the
    texts that do not hold the anchor of the guard and of the event (their
    replacements hold the anchor again, so a second run inserts a second
    guard and a second event); patch_default.py and patch_readme.py each
    have a text on which a second run changes the result; and every
    script is idempotent on a text whose patched form holds none of its
    anchors. *)
Theorem scripts_idempotence :
  (forall content,
     PatchService.patch (PatchService.patch content) = PatchService.patch content) /\
  (forall content,
     PatchEngineEmpty.patch (PatchEngineEmpty.patch content)
       = PatchEngineEmpty.patch content
     <-> str_in PatchEngineEmpty.old_line content = false) /\
  (forall content,
     PatchMain.patch (PatchMain.patch content) = PatchMain.patch content
     <-> str_in PatchMain.old_log content = false) /\
  (exists content,
     PatchDefault.patch (PatchDefault.patch content) <> PatchDefault.patch content) /\
  (exists content,
     PatchReadme.patch (PatchReadme.patch content) <> PatchReadme.patch content) /\
  (forall n content,
     (forall old new, In (old, new) (steps n) ->
                      str_in old (patch_of n content) = false) ->
     patch_of n (patch_of n content) = patch_of n content).
Proof.
  split; [exact service_patch_idempotent|].
  split; [exact engine_patch_idempotent_iff|].
  split; [exact main_patch_idempotent_iff|].
  split; [eexists; exact default_patch_not_idempotent|].
  split; [eexists; exact readme_patch_not_idempotent|].
  intros n content H. rewrite (patch_of_steps n (patch_of n content)).
  now apply fold_absent; [apply steps_nonempty|].
Qed.

Lemma scripts_idempotence_witness :
  PatchService.patch (PatchService.patch PatchService.service_example)
    = PatchService.patch PatchService.service_example /\
  str_in PatchEngineEmpty.old_line (py "fn embed() {}") = false /\
  PatchEngineEmpty.patch (PatchEngineEmpty.patch (py "fn embed() {}"))
    = PatchEngineEmpty.patch (py "fn embed() {}") /\
  str_in PatchMain.old_log (py "fn main() {}") = false /\
  PatchMain.patch (PatchMain.patch (py "fn main() {}"))
    = PatchMain.patch (py "fn main() {}").
Proof.
  destruct scripts_idempotence as (S & E & M & _ & _ & _).
  assert (He : str_in PatchEngineEmpty.old_line (py "fn embed() {}") = false)
    by (vm_compute; reflexivity).
  assert (Hm : str_in PatchMain.old_log (py "fn main() {}") = false)
    by (vm_compute; reflexivity).
  split; [exact (S PatchService.service_example)|].
  split; [exact He|]. split; [exact (proj2 (E _) He)|].
  split; [exact Hm | exact (proj2 (M _) Hm)].
Defined.

(** ** Further properties of the scripts *)

(** *** Reading and writing *)

Lemma In_of_existsb (c : N) (l : pystr) : existsb (N.eqb c) l = true -> In c l.
Proof.
  intros H. apply existsb_exists in H as [x [Hx E]].
  apply N.eqb_eq in E. now subst x.
Qed.

Lemma existsb_of_not_In (c : N) (l : pystr) : ~ In c l -> existsb (N.eqb c) l = false.
Proof.
  intros H. destruct (existsb (N.eqb c) l) eqn:E; [|reflexivity].
  now apply In_of_existsb in E.
Qed.

(** The text read holds no carriage return, whatever the file holds. *)
Lemma universal_newlines_no_cr raw : ~ In cr (universal_newlines raw).
Proof.
  remember (length raw) as n eqn:Hn. revert raw Hn.
  induction n as [n IH] using lt_wf_ind. intros raw ->.
  destruct raw as [|c rest]; [intros []|].
  cbn [universal_newlines]. destruct (N.eqb c cr) eqn:Ec.
  - intros [H | H]; [discriminate|].
    destruct rest as [|d rest']; [destruct H|].
    destruct (N.eqb d lf).
    + apply (IH (length rest')) in H; [exact H | simpl; lia | reflexivity].
    + apply (IH (length (d :: rest'))) in H; [exact H | simpl; lia | reflexivity].
  - intros [H | H].
    + subst c. now rewrite N.eqb_refl in Ec.
    + apply (IH (length rest)) in H; [exact H | simpl; lia | reflexivity].
Qed.

(** No replacement text of any script holds a carriage return. *)
Lemma steps_no_cr n old new : In (old, new) (steps n) -> ~ In cr new.
Proof.
  intros H Hc.
  assert (E : existsb (N.eqb cr) new = true).
  { apply existsb_exists. exists cr. split; [exact Hc | apply N.eqb_refl]. }
  revert H E. destruct n; unfold steps; cbn [In]; intros H;
    repeat (destruct H as [H | H];
            [injection H as _ <-; vm_compute; discriminate|]);
    destruct H.
Qed.

Lemma In_fold st c :
  (forall old new, In (old, new) st -> old <> []) ->
  forall content,
    In c (fold_left (fun c st => str_replace c (fst st) (snd st)) st content) ->
    In c content \/ exists old new, In (old, new) st /\ In c new.
Proof.
  induction st as [|[old new] st IH]; intros N content H; simpl in H; [now left|].
  destruct (IH (fun o n' Hi => N o n' (or_intror Hi)) _ H) as [H1 | (o & n' & Hi & Hc)].
  - unfold str_replace in H1. simpl in H1.
    apply In_replace in H1; [|apply (N old new); now left].
    destruct H1 as [H1 | H1]; [now left|].
    right. exists old, new. split; [now left | exact H1].
  - right. exists o, n'. split; [now right | exact Hc].
Qed.

(** X11: every code point of a patched text is a code point of the text
    read or of one of the script's replacement texts. *)
Theorem patched_text_characters n content c :
  In c (patch_of n content) ->
  In c content \/ exists old new, In (old, new) (steps n) /\ In c new.
Proof.
  rewrite patch_of_steps. apply In_fold, steps_nonempty.
Qed.

Lemma patched_text_characters_witness :
  In 100%N (patch_of Service PatchService.service_example) /\
  (In 100%N PatchService.service_example \/
   exists old new, In (old, new) (steps Service) /\ In 100%N new).
Proof.
  assert (H : In 100%N (patch_of Service PatchService.service_example))
    by (apply In_of_existsb; vm_compute; reflexivity).
  split; [exact H|].
  exact (patched_text_characters Service PatchService.service_example 100%N H).
Defined.

Lemma patch_no_cr n content : ~ In cr content -> ~ In cr (patch_of n content).
Proof.
  intros H Hc. rewrite patch_of_steps in Hc.
  apply In_fold in Hc; [|apply steps_nonempty].
  destruct Hc as [Hc | (old & new & Hi & Hc)]; [now apply H|].
  exact (steps_no_cr n old new Hi Hc).
Qed.

(** X3: whatever line endings the file had, the file a script writes holds
    no carriage return. *)
Theorem script_writes_no_carriage_return n fs fs' c :
  script_of n fs = Some fs' ->
  fs' (file_of n) = Some c ->
  existsb (N.eqb cr) c = false.
Proof.
  rewrite script_of_run. unfold run_script, read_text.
  destruct (fs (file_of n)) as [raw|]; [|discriminate].
  intros H Hc. injection H as <-.
  unfold fs_write in Hc. rewrite String.eqb_refl in Hc. injection Hc as <-.
  apply existsb_of_not_In, patch_no_cr, universal_newlines_no_cr.
Qed.

Lemma script_writes_no_carriage_return_witness :
  script_of Main (single_file (file_of Main) crlf_example)
    = Some (fs_write (single_file (file_of Main) crlf_example)
                     (file_of Main) crlf_example_read) /\
  fs_write (single_file (file_of Main) crlf_example)
           (file_of Main) crlf_example_read (file_of Main)
    = Some crlf_example_read /\
  existsb (N.eqb cr) crlf_example_read = false.
Proof.
  assert (H1 : script_of Main (single_file (file_of Main) crlf_example)
               = Some (fs_write (single_file (file_of Main) crlf_example)
                                (file_of Main) crlf_example_read))
    by (vm_compute; reflexivity).
  assert (H2 : fs_write (single_file (file_of Main) crlf_example)
                        (file_of Main) crlf_example_read (file_of Main)
               = Some crlf_example_read)
    by (vm_compute; reflexivity).
  split; [exact H1|]. split; [exact H2|].
  exact (script_writes_no_carriage_return Main _ _ _ H1 H2).
Defined.

(** X2: what a script wrote is read back as it was written, so a second
    run of the script on the file applies the patch to the patched text. *)
Theorem script_rerun_reads_back n content fs :
  read_text fs (file_of n) = Some content ->
  exists fs1 fs2,
    script_of n fs = Some fs1 /\
    read_text fs1 (file_of n) = Some (patch_of n content) /\
    script_of n fs1 = Some fs2 /\
    fs2 (file_of n) = Some (patch_of n (patch_of n content)).
Proof.
  intros H.
  assert (C : ~ In cr content).
  { unfold read_text in H. destruct (fs (file_of n)) as [raw|]; [|discriminate].
    injection H as <-. apply universal_newlines_no_cr. }
  assert (R : read_text (fs_write fs (file_of n) (patch_of n content)) (file_of n)
              = Some (patch_of n content)).
  { unfold read_text, fs_write. rewrite String.eqb_refl.
    now rewrite universal_newlines_id
      by (apply existsb_of_not_In, patch_no_cr, C). }
  exists (fs_write fs (file_of n) (patch_of n content)).
  exists (fs_write (fs_write fs (file_of n) (patch_of n content))
                   (file_of n) (patch_of n (patch_of n content))).
  rewrite !script_of_run. unfold run_script. rewrite H, R.
  repeat split. unfold fs_write. now rewrite String.eqb_refl.
Qed.

Lemma script_rerun_reads_back_witness :
  read_text (single_file (file_of Main) crlf_example) (file_of Main)
    = Some crlf_example_read /\
  exists fs1 fs2,
    script_of Main (single_file (file_of Main) crlf_example) = Some fs1 /\
    read_text fs1 (file_of Main) = Some (patch_of Main crlf_example_read) /\
    script_of Main fs1 = Some fs2 /\
    fs2 (file_of Main) = Some (patch_of Main (patch_of Main crlf_example_read)).
Proof.
  assert (H : read_text (single_file (file_of Main) crlf_example) (file_of Main)
              = Some crlf_example_read) by (vm_compute; reflexivity).
  split; [exact H|].
  exact (script_rerun_reads_back Main crlf_example_read _ H).
Defined.

(** X4: a script whose file is missing fails, and a run that succeeds
    neither creates nor deletes a file. *)
Theorem script_run_keeps_paths n fs :
  (fs (file_of n) = None -> script_of n fs = None) /\
  forall fs' q, script_of n fs = Some fs' -> (fs' q = None <-> fs q = None).
Proof.
  rewrite script_of_run. unfold run_script, read_text. split.
  - intros H. now rewrite H.
  - intros fs' q H. destruct (fs (file_of n)) as [raw|] eqn:E; [|discriminate].
    injection H as <-. unfold fs_write.
    destruct (String.eqb q (file_of n)) eqn:Q; [|tauto].
    apply String.eqb_eq in Q. subst q. rewrite E. split; discriminate.
Qed.

Lemma script_run_keeps_paths_witness :
  single_file PatchReadme.file PatchReadme.readme_example (file_of Service) = None /\
  script_of Service (single_file PatchReadme.file PatchReadme.readme_example) = None /\
  script_of Main (single_file (file_of Main) crlf_example)
    = Some (fs_write (single_file (file_of Main) crlf_example)
                     (file_of Main) crlf_example_read) /\
  (fs_write (single_file (file_of Main) crlf_example)
            (file_of Main) crlf_example_read (file_of Service) = None
   <-> single_file (file_of Main) crlf_example (file_of Service) = None).
Proof.
  assert (H : single_file PatchReadme.file PatchReadme.readme_example
                (file_of Service) = None) by (vm_compute; reflexivity).
  assert (R : script_of Main (single_file (file_of Main) crlf_example)
              = Some (fs_write (single_file (file_of Main) crlf_example)
                               (file_of Main) crlf_example_read))
    by (vm_compute; reflexivity).
  split; [exact H|]. split; [|split; [exact R|]].
  - exact (proj1 (script_run_keeps_paths Service
                    (single_file PatchReadme.file PatchReadme.readme_example)) H).
  - exact (proj2 (script_run_keeps_paths Main
                    (single_file (file_of Main) crlf_example)) _ (file_of Service) R).
Defined.

Lemma fs_write_other fs f c q : q <> f -> fs_write fs f c q = fs q.
Proof.
  intros H. unfold fs_write. destruct (String.eqb q f) eqn:E; [|reflexivity].
  apply String.eqb_eq in E. now destruct H.
Qed.

Lemma run_script_some f p fs raw :
  fs f = Some raw ->
  run_script f p fs = Some (fs_write fs f (p (universal_newlines raw))).
Proof. intros H. unfold run_script, read_text. now rewrite H. Qed.

Lemma run_script_none f p fs : fs f = None -> run_script f p fs = None.
Proof. intros H. unfold run_script, read_text. now rewrite H. Qed.

Lemma run_script_commute f g p1 p2 fs :
  f <> g ->
  same_files (and_then (run_script f p1 fs) (run_script g p2))
             (and_then (run_script g p2 fs) (run_script f p1)).
Proof.
  intros Hfg. assert (Hgf : g <> f) by congruence.
  destruct (fs f) as [rf|] eqn:Ef; destruct (fs g) as [rg|] eqn:Eg.
  - rewrite (run_script_some f p1 fs rf Ef), (run_script_some g p2 fs rg Eg).
    unfold and_then.
    rewrite (run_script_some g p2 _ rg) by (now rewrite fs_write_other).
    rewrite (run_script_some f p1 _ rf) by (now rewrite fs_write_other).
    intros q. unfold fs_write.
    destruct (String.eqb q g) eqn:Qg; destruct (String.eqb q f) eqn:Qf; try reflexivity.
    apply String.eqb_eq in Qg, Qf. congruence.
  - rewrite (run_script_some f p1 fs rf Ef), (run_script_none g p2 fs Eg).
    unfold and_then.
    now rewrite (run_script_none g p2) by (now rewrite fs_write_other).
  - rewrite (run_script_none f p1 fs Ef), (run_script_some g p2 fs rg Eg).
    unfold and_then.
    now rewrite (run_script_none f p1) by (now rewrite fs_write_other).
  - rewrite (run_script_none f p1 fs Ef), (run_script_none g p2 fs Eg). exact I.
Qed.

Lemma file_of_injective n m : n <> m -> file_of n <> file_of m.
Proof.
  intros H E. apply String.eqb_eq in E.
  destruct n, m; try (now destruct H); vm_compute in E; discriminate.
Qed.

(** X1: two different scripts can be run in either order: both orders
    fail, or both leave the same files. *)
Theorem scripts_commute n m fs :
  n <> m ->
  same_files (and_then (script_of n fs) (script_of m))
             (and_then (script_of m fs) (script_of n)).
Proof.
  intros H. rewrite !script_of_run.
  apply run_script_commute, file_of_injective, H.
Qed.

Lemma scripts_commute_witness :
  Readme <> Main /\
  same_files (and_then (script_of Readme two_files) (script_of Main))
             (and_then (script_of Main two_files) (script_of Readme)).
Proof.
  assert (H : Readme <> Main) by discriminate.
  split; [exact H | exact (scripts_commute Readme Main two_files H)].
Defined.

(** *** Anchors that never survive *)

(** X5: whatever the main source, the patched text holds no [MRL_DIM]
    attribute without help text. *)
Theorem main_attribute_always_documented content :
  str_in PatchMain.old_mrl_help (PatchMain.patch content) = false.
Proof.
  apply replace_adds_none;
    [exact old_log_nonempty | exact old_help_not_built_by_log |].
  exact (replace_removes _ _ old_mrl_help_nonempty
           help_no_overlap help_never_inside content).
Qed.

(** X6: whatever the config source, the patched text holds no derive line
    without [Default]. *)
Theorem default_derive_always_extended content :
  str_in PatchDefault.old_derive (PatchDefault.patch content) = false.
Proof.
  apply replace_adds_none;
    [exact old_variant_nonempty | exact old_derive_not_built_by_variant |].
  exact (replace_removes _ _ old_derive_nonempty
           derive_no_overlap derive_never_inside _).
Qed.

Lemma models_overlap_mirrored :
  overlap_mirrored PatchReadme.old_models_table PatchReadme.new_models_table = true.
Proof. by_evaluation. Qed.

Lemma models_never_inside :
  inside_at [] PatchReadme.old_models_table PatchReadme.new_models_table = true.
Proof. by_evaluation. Qed.

(** X7: whatever the README, the patched text holds no old models table,
    although the table begins and ends with the [|] that also begins the
    new one. *)
Theorem readme_models_table_always_replaced readme :
  str_in PatchReadme.old_models_table (PatchReadme.patch readme) = false.
Proof.
  exact (replace_removes_mirrored _ _ old_models_table_nonempty
           models_overlap_mirrored models_never_inside _).
Qed.

(** *** Order of the replacements *)

Lemma log_not_inside_help :
  inside_at [] PatchMain.old_log PatchMain.old_mrl_help = true.
Proof. by_evaluation. Qed.

Lemma help_not_inside_log :
  inside_at [] PatchMain.old_mrl_help PatchMain.old_log = true.
Proof. by_evaluation. Qed.

Lemma log_apart_new_help :
  apart PatchMain.old_log PatchMain.new_mrl_help = true.
Proof. by_evaluation. Qed.

Lemma help_apart_new_log :
  apart PatchMain.old_mrl_help PatchMain.new_log = true.
Proof. by_evaluation. Qed.

(** X8: the two replacements of patch_main.py can be made in either
    order. *)
Theorem main_replacements_commute content :
  PatchMain.patch content =
  str_replace (str_replace content PatchMain.old_log PatchMain.new_log)
              PatchMain.old_mrl_help PatchMain.new_mrl_help.
Proof.
  exact (replace_commute _ _ _ _ old_mrl_help_nonempty old_log_nonempty
           log_not_inside_help help_not_inside_log
           log_apart_new_help help_apart_new_log content).
Qed.

Lemma variant_not_inside_derive :
  inside_at [] PatchDefault.old_variant PatchDefault.old_derive = true.
Proof. by_evaluation. Qed.

Lemma derive_not_inside_variant :
  inside_at [] PatchDefault.old_derive PatchDefault.old_variant = true.
Proof. by_evaluation. Qed.

Lemma derive_apart_new_variant :
  apart PatchDefault.old_derive PatchDefault.new_variant = true.
Proof. by_evaluation. Qed.

(** The removal of the manual impl must come first: done after the derive
    replacement it can join a derive line that is then left without
    [Default]. *)
Lemma default_removal_order_matters :
  let content := py "#[derive(Debug, Clone, " ++ PatchDefault.old_impl
                    ++ py "Copy, PartialEq, Eq)]" in
  PatchDefault.patch content = PatchDefault.new_derive /\
  str_replace
    (str_replace content PatchDefault.old_derive PatchDefault.new_derive)
    PatchDefault.old_impl [] = PatchDefault.old_derive.
Proof. split; by_evaluation. Qed.

(** X9: after the removal of the manual impl, the derive and the variant
    replacement of patch_default.py can be made in either order. *)
Theorem default_derive_variant_commute content :
  PatchDefault.patch content =
  str_replace
    (str_replace (str_replace content PatchDefault.old_impl [])
                 PatchDefault.old_variant PatchDefault.new_variant)
    PatchDefault.old_derive PatchDefault.new_derive.
Proof.
  exact (replace_commute _ _ _ _ old_derive_nonempty old_variant_nonempty
           variant_not_inside_derive derive_not_inside_variant
           variant_apart_new_derive derive_apart_new_variant _).
Qed.

(** *** The derived default, and the size of the text *)

Lemma old_derive_survives_removal :
  transfer_ok PatchDefault.old_derive PatchDefault.old_impl [] = true.
Proof. by_evaluation. Qed.

Lemma old_variant_survives_removal :
  transfer_ok PatchDefault.old_variant PatchDefault.old_impl [] = true.
Proof. by_evaluation. Qed.

(** X10: on every config source that holds the derive line and the [Qwen3]
    variant line, with or without a manual impl, the patched text holds
    [Default] in the derive list and [#[default]] on [Qwen3]. *)
Theorem default_adds_derived_default content :
  str_in PatchDefault.old_derive content = true ->
  str_in PatchDefault.old_variant content = true ->
  PatchDefault.has_derived_default (PatchDefault.patch content) = true.
Proof.
  intros Hd Hv. unfold PatchDefault.has_derived_default, PatchDefault.patch.
  apply andb_true_iff. split.
  - apply replace_keeps;
      [exact old_variant_nonempty | exact new_derive_survives_variant |].
    apply replace_present; [exact old_derive_nonempty|].
    apply replace_keeps;
      [exact old_impl_nonempty | exact old_derive_survives_removal | exact Hd].
  - apply replace_present; [exact old_variant_nonempty|].
    apply replace_keeps;
      [exact old_derive_nonempty | exact old_variant_survives_derive |].
    apply replace_keeps;
      [exact old_impl_nonempty | exact old_variant_survives_removal | exact Hv].
Qed.

Lemma default_adds_derived_default_witness :
  str_in PatchDefault.old_derive
    (PatchDefault.config_example_head ++ PatchDefault.config_example_tail) = true /\
  str_in PatchDefault.old_variant
    (PatchDefault.config_example_head ++ PatchDefault.config_example_tail) = true /\
  PatchDefault.has_derived_default
    (PatchDefault.patch
       (PatchDefault.config_example_head ++ PatchDefault.config_example_tail)) = true.
Proof.
  assert (H1 : str_in PatchDefault.old_derive
    (PatchDefault.config_example_head ++ PatchDefault.config_example_tail) = true)
    by (vm_compute; reflexivity).
  assert (H2 : str_in PatchDefault.old_variant
    (PatchDefault.config_example_head ++ PatchDefault.config_example_tail) = true)
    by (vm_compute; reflexivity).
  split; [exact H1|]. split; [exact H2|].
  exact (default_adds_derived_default _ H1 H2).
Defined.

Lemma steps_grow n old new :
  n <> Default -> In (old, new) (steps n) -> length old < length new.
Proof.
  intros Hn. destruct n; try (now destruct Hn); unfold steps; cbn [In]; intros H;
    repeat (destruct H as [H | H]; [injection H as <- <-; vm_compute; lia|]);
    destruct H.
Qed.

Lemma fold_length st :
  (forall old new, In (old, new) st -> old <> [] /\ length old < length new) ->
  forall c,
    let out := fold_left (fun c st => str_replace c (fst st) (snd st)) st c in
    length c <= length out /\ (length out = length c -> out = c).
Proof.
  induction st as [|[old new] st IH]; intros H c; simpl; [split; [lia | reflexivity]|].
  destruct (H old new (or_introl eq_refl)) as [Hold L].
  specialize (IH (fun o n' Hi => H o n' (or_intror Hi)) (str_replace c old new)).
  simpl in IH. destruct IH as [IH1 IH2].
  assert (Le : length c <= length (str_replace c old new))
    by (apply replace_length_le; [exact Hold | lia]).
  split; [lia|]. intros E.
  assert (Ec : str_replace c old new = c).
  { apply replace_absent; [exact Hold|].
    destruct (occurs old c) eqn:O; [|reflexivity].
    pose proof (replace_grows old new c Hold L O) as G.
    unfold str_replace in *. lia. }
  rewrite IH2 by (rewrite Ec in *; lia). exact Ec.
Qed.

(** X12: no script but patch_default.py ever makes the text shorter, and
    such a script leaves the length as it was only when it leaves the text
    as it was. *)
Theorem patch_never_shortens n content :
  n <> Default ->
  length content <= length (patch_of n content) /\
  (length (patch_of n content) = length content -> patch_of n content = content).
Proof.
  intros Hn. rewrite patch_of_steps. apply fold_length.
  intros old new Hi. split; [exact (steps_nonempty n old new Hi)|].
  exact (steps_grow n old new Hn Hi).
Qed.

Lemma patch_never_shortens_witness :
  Service <> Default /\
  length PatchService.service_example
    <= length (patch_of Service PatchService.service_example).
Proof.
  assert (H : Service <> Default) by discriminate.
  split; [exact H|].
  exact (proj1 (patch_never_shortens Service PatchService.service_example H)).
Defined.

(** patch_default.py does make a text shorter. *)
Lemma default_patch_shortens :
  length (PatchDefault.patch PatchDefault.old_impl) < length PatchDefault.old_impl.
Proof. vm_compute. lia. Qed.
